(** * A shallow embedding of the Sudoku solver of [src/solver.h]

    The class template [Sudoku::Solver<SIZE>] becomes a section over the box
    size [SIZE].  The member [m_cells] is the state: every member function
    that writes it takes the grid and returns the new one.  All indices are
    [size_t] values bounded by [NCOUNT * NCOUNT], far from wrap-around, and
    are kept as [nat].  The tracing that [assumeNumber] writes to [std::cout]
    carries no state of the solver and is left out. *)

From stdpp Require Import base list gmap sorting.

(** ** The cell *)

Module Cell.

(** Modelled from the spec: the class template [Cell<NCOUNT>] of [cell.h],
    which [solver.h] includes but which is not among the sources.  A cell
    is Empty with its remaining candidate digits, or Filled with one digit.
    The candidate set is kept as the list in which [possibilities()]
    enumerates it, in ascending digit order. *)
Inductive t : Type :=
  | Empty (candidates : list nat)
  | Filled (digit : nat).

Definition isEmpty (c : t) : bool :=
  match c with Empty _ => true | Filled _ => false end.

(** Modelled from the spec: [candidates()], the current candidate set;
    a Filled cell has none. *)
Definition possibilities (c : t) : list nat :=
  match c with Empty cs => cs | Filled _ => [] end.

(** Modelled from the spec: membership of a digit in the candidate set. *)
Definition isPossible (number : nat) (c : t) : bool :=
  existsb (Nat.eqb number) (possibilities c).

(** Modelled from the spec: [hasUniqueCandidate()], true iff Empty and
    exactly one candidate remains. *)
Definition isOnlyOne (c : t) : bool :=
  match c with Empty [_] => true | _ => false end.

(** Modelled from the spec: [isContradictory()], true iff Empty and the
    candidate set is empty. *)
Definition isInconsistent (c : t) : bool :=
  match c with Empty [] => true | _ => false end.

(** Modelled from the spec: [assign(digit)], the cell becomes Filled. *)
Definition setNumber (number : nat) (c : t) : t := Filled number.

(** Modelled from the spec: [eliminate(digit)], which removes the digit
    from the candidates of an Empty cell and leaves a Filled cell alone. *)
Definition disable (number : nat) (c : t) : t :=
  match c with
  | Empty cs => Empty (filter (λ x, x ≠ number) cs)
  | Filled d => Filled d
  end.

(** Modelled from the spec: [digit()], which the spec defines on a Filled
    cell only.  What it reports on an Empty cell is the parameter
    [unfilled], a function of the candidates the cell holds. *)
Definition number (unfilled : list nat → nat) (c : t) : nat :=
  match c with Filled d => d | Empty cs => unfilled cs end.

(** Modelled from the spec: a cell created Empty with the full candidate
    set [1..ncount]. *)
Definition fresh (ncount : nat) : t := Empty (seq 1 ncount).

(** Modelled from the spec: the stream extraction of one cell.  The token
    0 denotes an Empty cell, a token in [1..ncount] a given digit, and any
    other token makes the extraction fail. *)
Definition parse (ncount : nat) (token : nat) : option t :=
  if token =? 0 then Some (fresh ncount)
  else if token <=? ncount then Some (Filled token)
  else None.

End Cell.

(** ** The solver *)

Inductive NbType : Type := ROW | COL | BOX.

(** [std::none_of] and [std::all_of] over a range. *)
Definition none_of {A} (p : A → bool) (l : list A) : bool := negb (existsb p l).
Definition all_of {A} (p : A → bool) (l : list A) : bool := forallb p l.

(** What a call of [solve] or [assumeNumber] comes to: it returns a flag
    and leaves a grid, or it dereferences the end iterator that [find_if]
    gives when no cell is Empty, or the fuel of the embedding ran out. *)
Inductive outcome : Type :=
  | Returned (result : bool) (cells : list Cell.t)
  | PastTheEnd
  | OutOfFuel.

(** The member [m_cells]. *)
Abbreviation grid := (list Cell.t).

Section Solver.

Variable SIZE : nat.
Variable unfilled : list nat → nat.

Definition NCOUNT : nat := SIZE * SIZE.

Definition col (i : nat) : nat := i mod NCOUNT.
Definition row (i : nat) : nat := i / NCOUNT.
Definition box (i : nat) : nat := (i / NCOUNT) / SIZE * SIZE + (i mod NCOUNT) / SIZE.

(** The group of a cell for each kind of neighbourhood. *)
Definition group_of (TYPE : NbType) (i : nat) : nat :=
  match TYPE with ROW => row i | COL => col i | BOX => box i end.

Definition initNeighbors (TYPE : NbType) : list (list nat) :=
  (λ i1,
     let boxFirst := i1 / SIZE * SIZE * NCOUNT + i1 mod SIZE * SIZE in
     (λ i2,
        match TYPE with
        | ROW => i1 * NCOUNT + i2
        | COL => i2 * NCOUNT + i1
        | BOX => boxFirst + i2 / SIZE * NCOUNT + i2 mod SIZE
        end) <$> seq 0 NCOUNT) <$> seq 0 NCOUNT.

(** [m_neighbors[TYPE][gi]]; the source never indexes the table with
    [gi >= NCOUNT], where the model gives the empty group. *)
Definition m_neighbors (TYPE : NbType) (gi : nat) : list nat :=
  default [] (initNeighbors TYPE !! gi).

(** [m_cells[nbi].disable(number)] *)
Definition disable_at (number : nat) (g : grid) (nbi : nat) : grid :=
  alter (Cell.disable number) nbi g.

(** The source indexes [m_cells[index]] unchecked; every caller passes an
    index of the grid, and outside of it the model leaves the grid alone. *)
Definition updatePossibilities (index : nat) (g : grid) : grid :=
  match g !! index with
  | None => g
  | Some cell =>
      let number := Cell.number unfilled cell in
      let g := foldl (disable_at number) g (m_neighbors ROW (row index)) in
      let g := foldl (disable_at number) g (m_neighbors COL (col index)) in
      foldl (disable_at number) g (m_neighbors BOX (box index))
  end.

(** The lambda [fn_check] of [restrict]. *)
Definition fn_check (g : grid) (number ind : nat) (nbs : list nat) : bool :=
  none_of (λ nbi,
    match g !! nbi with
    | Some cell =>
        negb (nbi =? ind) && Cell.isEmpty cell && Cell.isPossible number cell
    | None => false
    end) nbs.

(** The condition under which [restrict] assigns [number] to cell [i]. *)
Definition deducible (g : grid) (i : nat) (cell : Cell.t) (number : nat) : bool :=
  Cell.isOnlyOne cell
  || fn_check g number i (m_neighbors ROW (row i))
  || fn_check g number i (m_neighbors COL (col i))
  || fn_check g number i (m_neighbors BOX (box i)).

(** [cell.setNumber(number); updatePossibilities(i);] *)
Definition assign (i number : nat) (g : grid) : grid :=
  updatePossibilities i (alter (Cell.setNumber number) i g).

(** The inner loop of [restrict] over the copy [numbers] of the
    candidates: the first number that passes the test is assigned and the
    loop is left.  [None] when no number passed. *)
Fixpoint restrict_numbers (g : grid) (i : nat) (cell : Cell.t)
    (numbers : list nat) : option grid :=
  match numbers with
  | [] => None
  | number :: numbers' =>
      if deducible g i cell number then Some (assign i number g)
      else restrict_numbers g i cell numbers'
  end.

(** One round of the outer loop of [restrict], for the cell [i]. *)
Definition restrict_cell (st : bool * grid) (i : nat) : bool * grid :=
  match st.2 !! i with
  | None => st
  | Some cell =>
      if negb (Cell.isEmpty cell) then st
      else
        match restrict_numbers st.2 i cell (Cell.possibilities cell) with
        | Some g' => (true, g')
        | None => st
        end
  end.

Definition restrict (g : grid) : bool * grid :=
  foldl restrict_cell (false, g) (seq 0 (NCOUNT * NCOUNT)).

Definition isFilled (g : grid) : bool := none_of Cell.isEmpty g.

Definition isSolvable (g : grid) : bool := none_of Cell.isInconsistent g.

(** [std::find_if(m_cells.begin(), m_cells.end(), isEmpty)] with the
    distance of the result from [begin()]; [None] is the end iterator. *)
Definition find_empty (g : grid) : option (nat * Cell.t) :=
  list_find (λ c, Cell.isEmpty c = true) g.

(** The loop of [assumeNumber] over the candidates [poss] of the cell
    [index]; [solve] is the recursive call, [g] the grid at the head of
    the round, of which [backup] is the copy. *)
Fixpoint assume_loop (solve : grid → outcome) (index : nat)
    (poss : list nat) (g : grid) : outcome :=
  match poss with
  | [] => Returned false g
  | poss_number :: poss' =>
      let backup := g in
      match solve (assign index poss_number g) with
      | Returned true g' => Returned true g'
      | Returned false _ => assume_loop solve index poss' backup
      | PastTheEnd => PastTheEnd
      | OutOfFuel => OutOfFuel
      end
  end.

Definition assumeNumber (solve : grid → outcome) (g : grid) : outcome :=
  match find_empty g with
  | None => PastTheEnd
  | Some (index, cell) => assume_loop solve index (Cell.possibilities cell) g
  end.

(** [solve], with one unit of fuel for each round of its loop and for each
    call from [assumeNumber]. *)
Fixpoint solve_fuel (fuel : nat) (g : grid) : outcome :=
  match fuel with
  | 0 => OutOfFuel
  | S fuel' =>
      let solvable := isSolvable g in
      if isFilled g || negb solvable then Returned solvable g
      else
        let '(progress, g') := restrict g in
        if negb progress then assumeNumber (solve_fuel fuel') g'
        else solve_fuel fuel' g'
  end.

Definition count_empty (g : grid) : nat := length (filter (λ c, Cell.isEmpty c = true) g).

(** [solve] with the fuel that theorem [solve_fuel_enough] shows to be
    enough for every grid. *)
Definition solve (g : grid) : outcome := solve_fuel (S (count_empty g)) g.

(** The lambda [fn_testUnique] of [isCorrect], from the state [numbers] of
    its [std::unordered_set] on: [insert(..).second] is true when the
    number was not yet in the set.  A cell index outside the grid, which
    the table never holds for a grid of [NCOUNT * NCOUNT] cells, fails the
    test. *)
Fixpoint fn_testUnique_from (numbers : gset nat) (g : grid) (nbs : list nat) : bool :=
  match nbs with
  | [] => true
  | nbi :: nbs' =>
      match g !! nbi with
      | None => false
      | Some cell =>
          let n := Cell.number unfilled cell in
          bool_decide (n ∉ numbers) && fn_testUnique_from ({[n]} ∪ numbers) g nbs'
      end
  end.

Definition fn_testUnique (g : grid) (nbs : list nat) : bool :=
  fn_testUnique_from ∅ g nbs.

Definition isCorrect (g : grid) : bool :=
  all_of (λ index,
    fn_testUnique g (m_neighbors ROW index)
    && fn_testUnique g (m_neighbors COL index)
    && fn_testUnique g (m_neighbors BOX index)) (seq 0 NCOUNT).

(** The first loop of [read]: one cell from each of the first
    [NCOUNT * NCOUNT] tokens of the stream; [None] when the stream ends
    early or a token is refused. *)
Definition read_cells (stream : list nat) : option grid :=
  if length stream <? NCOUNT * NCOUNT then None
  else mapM (Cell.parse NCOUNT) (take (NCOUNT * NCOUNT) stream).

(** The second loop of [read]. *)
Definition read_update (g : grid) (i : nat) : grid :=
  match g !! i with
  | Some cell => if negb (Cell.isEmpty cell) then updatePossibilities i g else g
  | None => g
  end.

(** [read]: [None] where the source returns false. *)
Definition read (stream : list nat) : option grid :=
  cells ← read_cells stream;
  Some (foldl read_update cells (seq 0 (NCOUNT * NCOUNT))).

(** The cell that [initNeighbors] writes at [result[i1][i2]]. *)
Definition neighbor_at (TYPE : NbType) (i1 i2 : nat) : nat :=
  match TYPE with
  | ROW => i1 * NCOUNT + i2
  | COL => i2 * NCOUNT + i1
  | BOX => i1 / SIZE * SIZE * NCOUNT + i1 mod SIZE * SIZE + i2 / SIZE * NCOUNT + i2 mod SIZE
  end.

(** [j] is a cell of the row-group, the column-group or the box-group of
    the cell [index]. *)
Definition in_groups (index j : nat) : Prop :=
  j ∈ m_neighbors ROW (row index)
  ∨ j ∈ m_neighbors COL (col index)
  ∨ j ∈ m_neighbors BOX (box index).

#[global] Instance in_groups_dec index j : Decision (in_groups index j).
Proof. unfold in_groups. apply _. Defined.

(** The cell [j] is in the row, in the column or in the box of the cell
    [index], by the coordinates of the two cells. *)
Definition shares_group (index j : nat) : Prop :=
  row j = row index ∨ col j = col index ∨ box j = box index.

#[global] Instance shares_group_dec index j : Decision (shares_group index j).
Proof. unfold shares_group. apply _. Defined.

(** The elimination as the spec words it: [eliminate(d)] on every cell
    that shares the row, the column or the box of [index], the cell [index]
    itself excepted, and no other cell touched. *)
Definition eliminate_peers (index d : nat) (g : grid) : grid :=
  imap (λ j c, if decide (j ≠ index ∧ shares_group index j) then Cell.disable d c else c) g.

(** A cell after propagation, against the cell before: an Empty cell has
    lost candidates or has been assigned, a Filled cell is as it was. *)
Definition cell_shrinks (c c' : Cell.t) : Prop :=
  match c, c' with
  | Cell.Empty cs, Cell.Empty cs' => cs' ⊆ cs
  | Cell.Empty _, Cell.Filled _ => True
  | Cell.Filled d, Cell.Filled d' => d = d'
  | Cell.Filled _, Cell.Empty _ => False
  end.

Definition shrinks (g g' : grid) : Prop := Forall2 cell_shrinks g g'.

(** One step of propagation: a sweep, or the elimination that follows the
    assignment of a cell. *)
Inductive propagation : grid → grid → Prop :=
  | propagation_sweep g : propagation g (restrict g).2
  | propagation_assignment g index : propagation g (updatePossibilities index g).

(** The two deductions of the sweep, as the spec words them, the groups
    of a cell being the cells with its row, column or box number. *)
Definition naked_single (cell : Cell.t) : Prop :=
  ∃ c, Cell.possibilities cell = [c].

Definition hidden_single_in (TYPE : NbType) (g : grid) (i c : nat) : Prop :=
  ∀ k cs, k ≠ i → group_of TYPE k = group_of TYPE i →
          g !! k = Some (Cell.Empty cs) → c ∉ cs.

Definition hidden_single (g : grid) (i c : nat) : Prop :=
  ∃ TYPE, hidden_single_in TYPE g i c.

Definition may_assign (g : grid) (i : nat) (cell : Cell.t) (c : nat) : Prop :=
  naked_single cell ∨ hidden_single g i c.

(** What [number()] reports for the cell [k] of the grid. *)
Definition number_at (g : grid) (k : nat) : option nat :=
  Cell.number unfilled <$> g !! k.

(** The validation as the spec words it, the groups being the cells with
    the same row, column or box number: every cell of the grid is Filled,
    and no two cells of a group carry the same digit. *)
Definition groups_filled_distinct (g : grid) : Prop :=
  (∀ i, i < NCOUNT * NCOUNT → ∃ d, g !! i = Some (Cell.Filled d))
  ∧ ∀ TYPE i j d,
      g !! i = Some (Cell.Filled d) → g !! j = Some (Cell.Filled d) →
      group_of TYPE i = group_of TYPE j → i = j.

(** A candidate list in ascending digit order, and a grid all of whose
    Empty cells hold such a list. *)
Definition ascending (cs : list nat) : Prop := StronglySorted lt cs.

Definition candidates_ascending (g : grid) : Prop :=
  ∀ i cs, g !! i = Some (Cell.Empty cs) → ascending cs.

(** A legal completed grid, as a list of digits in row-major order:
    every digit is in [1..NCOUNT] and no row, column or box holds a digit
    twice. *)
Definition legal (s : list nat) : Prop :=
  length s = NCOUNT * NCOUNT
  ∧ (∀ i d, s !! i = Some d → 1 ≤ d ≤ NCOUNT)
  ∧ (∀ TYPE i j d, s !! i = Some d → s !! j = Some d →
       group_of TYPE i = group_of TYPE j → i = j).

(** The completed grid [s] carries every given digit of the input. *)
Definition completes (stream s : list nat) : Prop :=
  ∀ i token, i < NCOUNT * NCOUNT → stream !! i = Some token → token ≠ 0 →
             s !! i = Some token.

(** The grid [g] can still become [s]: a Filled cell carries the digit of
    [s], an Empty cell lists it. *)
Definition cell_extends (c : Cell.t) (d : nat) : Prop :=
  match c with Cell.Filled d' => d' = d | Cell.Empty cs => d ∈ cs end.

Definition extends_to (g : grid) (s : list nat) : Prop := Forall2 cell_extends g s.

(** The digit of the Filled cell [i] has been disabled in every cell of
    its groups. *)
Definition eliminated_at (g : grid) (i : nat) : Prop :=
  ∀ TYPE j d cs, g !! i = Some (Cell.Filled d) → g !! j = Some (Cell.Empty cs) →
                 group_of TYPE i = group_of TYPE j → d ∉ cs.

(** The states of the grid that [read] and the solver produce. *)
Record well_formed (g : grid) : Prop := {
  wf_length : length g = NCOUNT * NCOUNT;
  wf_eliminated : ∀ i, eliminated_at g i;
  wf_consistent : ∀ TYPE i j d,
    g !! i = Some (Cell.Filled d) → g !! j = Some (Cell.Filled d) →
    group_of TYPE i = group_of TYPE j → i = j;
  wf_range : ∀ i cs d, g !! i = Some (Cell.Empty cs) → d ∈ cs → 1 ≤ d ≤ NCOUNT;
  wf_digits : ∀ i d, g !! i = Some (Cell.Filled d) → 1 ≤ d ≤ NCOUNT;
}.

(** [n] sweeps in a row. *)
Definition sweeps (n : nat) (g : grid) : grid := Nat.iter n (λ g, (restrict g).2) g.

(** A given digit of the input against the digit of a completed grid. *)
Definition given_ok (p : nat * nat) : bool := (p.1 =? 0) || (p.1 =? p.2).

(** A cell after solving, against the cell before: an Empty cell has
    lost candidates or carries one of them, a Filled cell is as it was. *)
Definition cell_refines (c c' : Cell.t) : Prop :=
  match c, c' with
  | Cell.Empty cs, Cell.Empty cs' => cs' ⊆ cs
  | Cell.Empty cs, Cell.Filled d => d ∈ cs
  | Cell.Filled d, Cell.Filled d' => d = d'
  | Cell.Filled _, Cell.Empty _ => False
  end.

Definition refines (g g' : grid) : Prop := Forall2 cell_refines g g'.

(** No two given digits of the input that share a row, a column or a box
    are equal. *)
Definition clash_free (stream : list nat) : Prop :=
  ∀ TYPE i j token,
    i < NCOUNT * NCOUNT → j < NCOUNT * NCOUNT →
    stream !! i = Some token → stream !! j = Some token → token ≠ 0 →
    group_of TYPE i = group_of TYPE j → i = j.

(** The test of [clash_free] on the first [NCOUNT * NCOUNT] tokens. *)
Definition clash_freeb (stream : list nat) : bool :=
  forallb (λ i,
    forallb (λ j,
      match stream !! i, stream !! j with
      | Some a, Some b =>
          (a =? 0) || negb (a =? b) || (i =? j)
          || forallb (λ TYPE, negb (group_of TYPE i =? group_of TYPE j)) [ROW; COL; BOX]
      | _, _ => true
      end) (seq 0 (NCOUNT * NCOUNT))) (seq 0 (NCOUNT * NCOUNT)).

End Solver.

(** ** Grids of the examples *)

(** In the examples [number()] reports 0 on an Empty cell. *)
Definition reports_zero : list nat → nat := λ _, 0.

(** A puzzle that the sweeps solve, and its completion. *)
Definition easy : list nat :=
  [5;3;0;0;7;0;0;0;0;
   6;0;0;1;9;5;0;0;0;
   0;9;8;0;0;0;0;6;0;
   8;0;0;0;6;0;0;0;3;
   4;0;0;8;0;3;0;0;1;
   7;0;0;0;2;0;0;0;6;
   0;6;0;0;0;0;2;8;0;
   0;0;0;4;1;9;0;0;5;
   0;0;0;0;8;0;0;7;9].

Definition easy_solution : list nat :=
  [5;3;4;6;7;8;9;1;2;
   6;7;2;1;9;5;3;4;8;
   1;9;8;3;4;2;5;6;7;
   8;5;9;7;6;1;4;2;3;
   4;2;6;8;5;3;7;9;1;
   7;1;3;9;2;4;8;5;6;
   9;6;1;5;3;7;2;8;4;
   2;8;7;4;1;9;6;3;5;
   3;4;5;2;8;6;1;7;9].

Definition easy_grid : list Cell.t :=
  Eval vm_compute in default [] (read 3 reports_zero easy).

(** A puzzle on which the first sweep makes no deduction. *)
Definition hard : list nat :=
  [8;0;0;0;0;0;0;0;0;
   0;0;3;6;0;0;0;0;0;
   0;7;0;0;9;0;2;0;0;
   0;5;0;0;0;7;0;0;0;
   0;0;0;0;4;5;7;0;0;
   0;0;0;1;0;0;0;3;0;
   0;0;1;0;0;0;0;6;8;
   0;0;8;5;0;0;0;1;0;
   0;9;0;0;0;0;4;0;0].

Definition hard_grid : list Cell.t :=
  Eval vm_compute in default [] (read 3 reports_zero hard).

(** Givens without a clash among them that leave the first cell with the
    candidates 1, 2 and 9, where 1 has no other place in the first row and
    2 no other place in the first column. *)
Definition two_singles : list nat :=
  [0;3;4;5;6;7;8;0;0;
   5;0;0;0;0;0;1;0;0;
   6;0;0;0;0;0;0;0;0;
   7;0;0;0;0;0;0;0;0;
   8;0;0;0;0;0;0;0;0;
   3;0;0;0;0;0;0;0;0;
   4;0;0;0;0;0;0;0;0;
   0;2;0;0;0;0;0;0;0;
   0;0;0;0;0;0;0;0;0].

Definition two_singles_grid : list Cell.t :=
  Eval vm_compute in default [] (read 3 reports_zero two_singles).

(** The cells of [easy] as the first loop of [read] leaves them, before
    any elimination. *)
Definition easy_cells : list Cell.t :=
  Eval vm_compute in default [] (read_cells 3 easy).

(** * Properties of the solver *)

Section Properties.

Variable SIZE : nat.
Variable unfilled : list nat → nat.

Abbreviation NCOUNT := (NCOUNT SIZE).
Abbreviation col := (col SIZE).
Abbreviation row := (row SIZE).
Abbreviation box := (box SIZE).
Abbreviation group_of := (group_of SIZE).
Abbreviation initNeighbors := (initNeighbors SIZE).
Abbreviation m_neighbors := (m_neighbors SIZE).
Abbreviation neighbor_at := (neighbor_at SIZE).
Abbreviation in_groups := (in_groups SIZE).
Abbreviation shares_group := (shares_group SIZE).
Abbreviation eliminate_peers := (eliminate_peers SIZE).
Abbreviation deducible := (deducible SIZE).
Abbreviation hidden_single_in := (hidden_single_in SIZE).
Abbreviation hidden_single := (hidden_single SIZE).
Abbreviation may_assign := (may_assign SIZE).
Abbreviation groups_filled_distinct := (groups_filled_distinct SIZE).
Abbreviation legal := (legal SIZE).
Abbreviation completes := (completes SIZE).
Abbreviation eliminated_at := (eliminated_at SIZE).
Abbreviation read_cells := (read_cells SIZE).
Abbreviation well_formed := (well_formed SIZE).
Abbreviation clash_free := (clash_free SIZE).
Abbreviation clash_freeb := (clash_freeb SIZE).
Abbreviation wf_length := (wf_length SIZE).
Abbreviation wf_eliminated := (wf_eliminated SIZE).
Abbreviation wf_consistent := (wf_consistent SIZE).
Abbreviation wf_range := (wf_range SIZE).
Abbreviation wf_digits := (wf_digits SIZE).
Abbreviation updatePossibilities := (updatePossibilities SIZE unfilled).
Abbreviation assign := (assign SIZE unfilled).
Abbreviation restrict_numbers := (restrict_numbers SIZE unfilled).
Abbreviation restrict_cell := (restrict_cell SIZE unfilled).
Abbreviation restrict := (restrict SIZE unfilled).
Abbreviation assume_loop := (assume_loop SIZE unfilled).
Abbreviation assumeNumber := (assumeNumber SIZE unfilled).
Abbreviation solve_fuel := (solve_fuel SIZE unfilled).
Abbreviation solve := (solve SIZE unfilled).
Abbreviation read_update := (read_update SIZE unfilled).
Abbreviation read := (read SIZE unfilled).
Abbreviation propagation := (propagation SIZE unfilled).
Abbreviation sweeps := (sweeps SIZE unfilled).
Abbreviation isCorrect := (isCorrect SIZE unfilled).
Abbreviation fn_testUnique_from := (fn_testUnique_from unfilled).
Abbreviation fn_testUnique := (fn_testUnique unfilled).
Abbreviation number_at := (number_at unfilled).

(** ** Cells *)

Implicit Types (c cell : Cell.t) (n d i j k index number : nat) (g : grid).

Lemma isEmpty_true c : Cell.isEmpty c = true ↔ ∃ cs, c = Cell.Empty cs.
Proof. destruct c; naive_solver. Qed.

Lemma isEmpty_false c : Cell.isEmpty c = false ↔ ∃ d, c = Cell.Filled d.
Proof. destruct c; naive_solver. Qed.

Lemma isEmpty_disable n c : Cell.isEmpty (Cell.disable n c) = Cell.isEmpty c.
Proof. by destruct c. Qed.

Lemma disable_Filled n d : Cell.disable n (Cell.Filled d) = Cell.Filled d.
Proof. done. Qed.

Lemma disable_idemp n c : Cell.disable n (Cell.disable n c) = Cell.disable n c.
Proof.
  destruct c as [cs|d]; simpl; [|done]. f_equal.
  induction cs as [|x cs IH]; [done|].
  rewrite filter_cons. case_decide; [|done].
  rewrite filter_cons. case_decide; [|done]. by rewrite IH.
Qed.

Lemma isPossible_spec n c : Cell.isPossible n c = true ↔ n ∈ Cell.possibilities c.
Proof.
  unfold Cell.isPossible. rewrite existsb_exists. split.
  - intros (x & Hx & ->%Nat.eqb_eq). by apply list_elem_of_In.
  - intros H. exists n. split; [by apply list_elem_of_In | apply Nat.eqb_refl].
Qed.

Lemma possibilities_disable n c x :
  x ∈ Cell.possibilities (Cell.disable n c) ↔ x ∈ Cell.possibilities c ∧ x ≠ n.
Proof.
  destruct c as [cs|d]; simpl.
  - rewrite list_elem_of_filter. naive_solver.
  - split; [by intros ?%elem_of_nil | by intros [?%elem_of_nil _]].
Qed.

Lemma isOnlyOne_spec c : Cell.isOnlyOne c = true ↔ ∃ x, c = Cell.Empty [x].
Proof. destruct c as [[|x [|y cs]]|d]; naive_solver. Qed.

Lemma isInconsistent_spec c : Cell.isInconsistent c = true ↔ c = Cell.Empty [].
Proof. destruct c as [[|x cs]|d]; naive_solver. Qed.

(** ** Arithmetic of the coordinates *)

Lemma div_mod_pair n q r : r < n → (q * n + r) / n = q ∧ (q * n + r) mod n = r.
Proof.
  intros Hr. split.
  - symmetry. apply (Nat.div_unique _ _ _ r); lia.
  - symmetry. apply (Nat.mod_unique _ _ q); lia.
Qed.

Lemma split_div_mod n x : 0 < n → x = x / n * n + x mod n ∧ x mod n < n.
Proof.
  intros Hn. split; [|apply Nat.mod_upper_bound; lia].
  rewrite (Nat.div_mod_eq x n) at 1. lia.
Qed.

Lemma div_lt_sq n x : x < n * n → x / n < n.
Proof.
  intros Hx. destruct (decide (n = 0)) as [->|]; [lia|].
  apply Nat.Div0.div_lt_upper_bound. lia.
Qed.

(** ** The neighbour tables *)

Lemma m_neighbors_eq TYPE gi :
  gi < NCOUNT → m_neighbors TYPE gi = neighbor_at TYPE gi <$> seq 0 NCOUNT.
Proof.
  intros Hgi. unfold m_neighbors, initNeighbors.
  rewrite list_lookup_fmap, lookup_seq_lt by done. simpl.
  apply list_fmap_ext. intros _ i2 _. by destruct TYPE.
Qed.

Lemma m_neighbors_length TYPE gi : gi < NCOUNT → length (m_neighbors TYPE gi) = NCOUNT.
Proof. intros Hgi. by rewrite m_neighbors_eq, length_fmap, length_seq. Qed.

Lemma elem_of_m_neighbors TYPE gi k :
  gi < NCOUNT →
  k ∈ m_neighbors TYPE gi ↔ ∃ i2, i2 < NCOUNT ∧ k = neighbor_at TYPE gi i2.
Proof.
  intros Hgi. rewrite m_neighbors_eq, list_elem_of_fmap by done.
  split; intros (i2 & H1 & H2); exists i2.
  - apply elem_of_seq in H2. split; [lia | done].
  - split; [done | apply elem_of_seq; lia].
Qed.

Lemma SIZE_pos : 0 < NCOUNT → 0 < SIZE.
Proof. unfold NCOUNT. lia. Qed.

(** A cell of the table lies in the grid and in the group the table lists
    it under. *)
Lemma neighbor_at_group TYPE gi i2 :
  gi < NCOUNT → i2 < NCOUNT →
  neighbor_at TYPE gi i2 < NCOUNT * NCOUNT ∧ group_of TYPE (neighbor_at TYPE gi i2) = gi.
Proof.
  intros Hgi Hi2. assert (Hn : 0 < SIZE) by (apply SIZE_pos; lia).
  destruct TYPE; simpl; unfold row, col, box.
  - destruct (div_mod_pair NCOUNT gi i2 Hi2) as [-> _]. split; [nia | done].
  - destruct (div_mod_pair NCOUNT i2 gi Hgi) as [_ ->]. split; [nia | done].
  - destruct (split_div_mod SIZE gi Hn) as [Ha Hb].
    destruct (split_div_mod SIZE i2 Hn) as [Hc Hd].
    pose proof (div_lt_sq SIZE gi Hgi) as Ha'.
    pose proof (div_lt_sq SIZE i2 Hi2) as Hc'.
    set (a := gi / SIZE) in *. set (b := gi mod SIZE) in *.
    set (c := i2 / SIZE) in *. set (d := i2 mod SIZE) in *.
    assert (Hlow : b * SIZE + d < NCOUNT) by (unfold NCOUNT; nia).
    replace (a * SIZE * NCOUNT + b * SIZE + c * NCOUNT + d)
      with ((a * SIZE + c) * NCOUNT + (b * SIZE + d)) by lia.
    destruct (div_mod_pair NCOUNT (a * SIZE + c) (b * SIZE + d) Hlow) as [-> ->].
    destruct (div_mod_pair SIZE a c Hc') as [-> _].
    destruct (div_mod_pair SIZE b d Hd) as [-> _].
    split; [unfold NCOUNT in *; nia | lia].
Qed.

Lemma group_of_lt TYPE i : i < NCOUNT * NCOUNT → group_of TYPE i < NCOUNT.
Proof.
  intros Hi. assert (Hn : 0 < SIZE) by (apply SIZE_pos; lia).
  destruct TYPE; simpl; unfold row, col, box.
  - by apply div_lt_sq.
  - apply Nat.mod_upper_bound. lia.
  - pose proof (div_lt_sq NCOUNT i Hi) as Hr.
    assert (Hc : i mod NCOUNT < NCOUNT) by (apply Nat.mod_upper_bound; lia).
    pose proof (div_lt_sq SIZE _ Hr) as Hr'.
    pose proof (div_lt_sq SIZE _ Hc) as Hc'.
    unfold NCOUNT in *. nia.
Qed.

(** Every cell of the grid is listed in each of its three groups. *)
Lemma elem_of_own_group TYPE i :
  i < NCOUNT * NCOUNT → i ∈ m_neighbors TYPE (group_of TYPE i).
Proof.
  intros Hi. assert (Hn : 0 < SIZE) by (apply SIZE_pos; lia).
  assert (HN : 0 < NCOUNT) by lia.
  apply elem_of_m_neighbors; [by apply group_of_lt|].
  destruct (split_div_mod NCOUNT i HN) as [Hrc Hc].
  pose proof (div_lt_sq NCOUNT i Hi) as Hr.
  destruct TYPE; simpl; unfold row, col, box.
  - exists (i mod NCOUNT). split; [done | lia].
  - exists (i / NCOUNT). split; [done | lia].
  - set (r := i / NCOUNT) in *. set (c := i mod NCOUNT) in *.
    destruct (split_div_mod SIZE r Hn) as [Hr1 Hr2].
    destruct (split_div_mod SIZE c Hn) as [Hc1 Hc2].
    pose proof (div_lt_sq SIZE r Hr) as Hr3.
    pose proof (div_lt_sq SIZE c Hc) as Hc3.
    exists (r mod SIZE * SIZE + c mod SIZE).
    destruct (div_mod_pair SIZE (r / SIZE) (c / SIZE) Hc3) as [-> ->].
    destruct (div_mod_pair SIZE (r mod SIZE) (c mod SIZE) Hc2) as [-> ->].
    split; [unfold NCOUNT; nia|].
    rewrite Hrc at 1. rewrite Hr1 at 1. rewrite Hc1 at 1. lia.
Qed.

Lemma m_neighbors_group TYPE gi k :
  gi < NCOUNT → k ∈ m_neighbors TYPE gi → k < NCOUNT * NCOUNT ∧ group_of TYPE k = gi.
Proof.
  intros Hgi (i2 & Hi2 & ->)%elem_of_m_neighbors; [|done].
  by apply neighbor_at_group.
Qed.

(** The group of a cell holds exactly the cells of the grid with the same
    row, column or box number. *)
Lemma elem_of_group_of TYPE i k :
  i < NCOUNT * NCOUNT →
  k ∈ m_neighbors TYPE (group_of TYPE i) ↔
  k < NCOUNT * NCOUNT ∧ group_of TYPE k = group_of TYPE i.
Proof.
  intros Hi. split.
  - apply m_neighbors_group. by apply group_of_lt.
  - intros [Hk <-]. by apply elem_of_own_group.
Qed.


(** ** The elimination after an assignment *)

Lemma foldl_disable_at_length number l g :
  length (foldl (disable_at number) g l) = length g.
Proof.
  revert g. induction l as [|k l IH]; intros g; simpl; [done|].
  rewrite IH. apply length_alter.
Qed.

Lemma foldl_disable_at_lookup number l g j :
  foldl (disable_at number) g l !! j =
  if decide (j ∈ l) then Cell.disable number <$> g !! j else g !! j.
Proof.
  revert g. induction l as [|k l IH]; intros g; simpl.
  - done.
  - rewrite IH. unfold disable_at. destruct (decide (k = j)) as [->|Hkj].
    + rewrite list_lookup_alter_eq. rewrite (decide_True _ _ (list_elem_of_here j l)).
      case_decide; [|done].
      destruct (g !! j) as [c|]; simpl; [|done]. by rewrite disable_idemp.
    + rewrite list_lookup_alter_ne by done.
      destruct (decide (j ∈ l)) as [Hl|Hl].
      * by rewrite decide_True by (by apply list_elem_of_further).
      * rewrite decide_False; [done|]. intros [?|?]%elem_of_cons; congruence.
Qed.

Lemma updatePossibilities_length index g :
  length (updatePossibilities index g) = length g.
Proof.
  unfold updatePossibilities. destruct (g !! index); [|done].
  by rewrite !foldl_disable_at_length.
Qed.

(** What [updatePossibilities] leaves in each cell. *)
Lemma updatePossibilities_lookup index cell g j :
  g !! index = Some cell →
  updatePossibilities index g !! j =
  if decide (in_groups index j)
  then Cell.disable (Cell.number unfilled cell) <$> g !! j else g !! j.
Proof.
  intros Hcell. unfold updatePossibilities. rewrite Hcell.
  rewrite !foldl_disable_at_lookup. unfold in_groups.
  set (n := Cell.number unfilled cell).
  assert (Hid : ∀ o : option Cell.t,
    Cell.disable n <$> (Cell.disable n <$> o) = Cell.disable n <$> o).
  { intros [c|]; simpl; [|done]. by rewrite disable_idemp. }
  repeat case_decide; rewrite ?Hid; try done; tauto.
Qed.

Lemma in_groups_iff i j :
  i < NCOUNT * NCOUNT →
  in_groups i j ↔ j < NCOUNT * NCOUNT ∧ ∃ TYPE, group_of TYPE j = group_of TYPE i.
Proof.
  intros Hi. unfold in_groups.
  rewrite (elem_of_group_of ROW i j Hi), (elem_of_group_of COL i j Hi),
    (elem_of_group_of BOX i j Hi). split.
  - intros [[? ?]|[[? ?]|[? ?]]]; (split; [done|]);
      [by exists ROW | by exists COL | by exists BOX].
  - intros [Hj [[] HT]]; tauto.
Qed.

(** The cells that the three table rows of a cell list are the cells of
    the grid with the row, the column or the box number of the cell. *)
Lemma in_groups_shares i j :
  i < NCOUNT * NCOUNT → in_groups i j ↔ j < NCOUNT * NCOUNT ∧ shares_group i j.
Proof.
  intros Hi. rewrite (in_groups_iff i j Hi). unfold shares_group. split.
  - intros [Hj [[] HT]]; simpl in HT; tauto.
  - intros [Hj [H|[H|H]]]; (split; [done|]);
      [by exists ROW | by exists COL | by exists BOX].
Qed.

(** C3: on a grid of [NCOUNT * NCOUNT] cells whose cell [index] is Filled
    with [d], [updatePossibilities] leaves the grid that [eliminate(d)] on
    every cell that shares the row, the column or the box of [index], the
    cell [index] itself excepted, produces; every other cell is as it
    was. *)
Theorem updatePossibilities_eliminates_peers index d g :
  length g = NCOUNT * NCOUNT →
  g !! index = Some (Cell.Filled d) →
  updatePossibilities index g = eliminate_peers index d g.
Proof.
  intros Hlen Hcell. apply list_eq. intros j. unfold eliminate_peers.
  assert (Hindex : index < NCOUNT * NCOUNT).
  { rewrite <- Hlen. by eapply lookup_lt_Some. }
  rewrite list_lookup_imap, (updatePossibilities_lookup _ _ _ _ Hcell).
  pose proof (in_groups_shares index j Hindex) as Hshares.
  destruct (g !! j) as [c|] eqn:Hj; [|by case_decide].
  assert (Hjlt : j < NCOUNT * NCOUNT) by (rewrite <- Hlen; by eapply lookup_lt_Some).
  destruct (decide (j = index)) as [->|Hne].
  - simplify_eq. destruct (decide (index ≠ index ∧ shares_group index index)) as [[? _]|_];
      [done|]. by case_decide.
  - destruct (decide (in_groups index j)) as [Hin|Hout];
      destruct (decide (j ≠ index ∧ shares_group index j)) as [[_ Hs]|Hns]; try done.
    + destruct Hns. split; [done|]. by apply Hshares.
    + destruct Hout. by apply Hshares.
Qed.

(** ** Assignments *)

Lemma assign_length i n g : length (assign i n g) = length g.
Proof. unfold assign. by rewrite updatePossibilities_length, length_alter. Qed.

Lemma assign_lookup i n g j :
  i < length g →
  assign i n g !! j =
  if decide (j = i) then Some (Cell.Filled n)
  else if decide (in_groups i j) then Cell.disable n <$> g !! j else g !! j.
Proof.
  intros Hi. destruct (lookup_lt_is_Some_2 g i Hi) as [cell Hcell].
  assert (Hset : alter (Cell.setNumber n) i g !! i = Some (Cell.Filled n)).
  { by rewrite list_lookup_alter_eq, Hcell. }
  unfold assign. rewrite (updatePossibilities_lookup _ _ _ _ Hset). simpl.
  destruct (decide (j = i)) as [->|Hj].
  - rewrite Hset. by case_decide.
  - by rewrite list_lookup_alter_ne.
Qed.

Lemma assign_lookup_eq i n g : i < length g → assign i n g !! i = Some (Cell.Filled n).
Proof. intros Hi. by rewrite assign_lookup, decide_True. Qed.

(** Away from the assigned cell an assignment only disables the number. *)
Lemma assign_lookup_ne i n g j c :
  i < length g → j ≠ i → g !! j = Some c →
  assign i n g !! j = Some c ∨ assign i n g !! j = Some (Cell.disable n c).
Proof.
  intros Hi Hj Hc. rewrite assign_lookup, decide_False, Hc by done.
  case_decide; auto.
Qed.

(** ** The sweep *)

Lemma fn_check_spec TYPE g number i :
  length g = NCOUNT * NCOUNT → i < NCOUNT * NCOUNT →
  fn_check g number i (m_neighbors TYPE (group_of TYPE i)) = true ↔
  hidden_single_in TYPE g i number.
Proof.
  intros Hlen Hi. unfold fn_check, none_of, hidden_single_in.
  rewrite negb_true_iff, <- not_true_iff_false, existsb_exists. split.
  - intros Hno k cs Hki HT Hcell Hc. apply Hno. exists k. split.
    + apply list_elem_of_In, elem_of_group_of; [done|]. split; [|done].
      rewrite <- Hlen. by eapply lookup_lt_Some.
    + rewrite Hcell. simpl. rewrite andb_true_r. apply andb_true_iff. split.
      * apply negb_true_iff. by apply Nat.eqb_neq.
      * by apply isPossible_spec.
  - intros Hall (k & Hk%list_elem_of_In & Hb).
    apply elem_of_group_of in Hk as [_ HT]; [|done].
    destruct (g !! k) as [[cs|d]|] eqn:Hcell; [|by rewrite andb_false_r in Hb|done].
    apply andb_true_iff in Hb as [[Hki%negb_true_iff%Nat.eqb_neq _]%andb_true_iff Hp].
    apply isPossible_spec in Hp. by apply (Hall k cs).
Qed.

Lemma deducible_spec g i cell number :
  length g = NCOUNT * NCOUNT → i < NCOUNT * NCOUNT →
  deducible g i cell number = true ↔ may_assign g i cell number.
Proof.
  intros Hlen Hi. unfold deducible, may_assign, naked_single, hidden_single.
  rewrite !orb_true_iff, isOnlyOne_spec.
  rewrite (fn_check_spec ROW g number i Hlen Hi), (fn_check_spec COL g number i Hlen Hi),
    (fn_check_spec BOX g number i Hlen Hi). split.
  - intros [[[[x ->]|H]|H]|H]; [left; by exists x|right..].
    + by exists ROW.
    + by exists COL.
    + by exists BOX.
  - intros [[x Hx]|[[] H]]; [|tauto..].
    left; left; left. destruct cell as [cs|d]; simpl in Hx; [|done].
    exists x. by rewrite Hx.
Qed.

Lemma restrict_numbers_Some g i cell numbers g' :
  restrict_numbers g i cell numbers = Some g' →
  ∃ pre number post,
    numbers = pre ++ number :: post
    ∧ Forall (λ x, deducible g i cell x = false) pre
    ∧ deducible g i cell number = true
    ∧ g' = assign i number g.
Proof.
  induction numbers as [|x numbers IH]; simpl; [done|].
  destruct (deducible g i cell x) eqn:Hx.
  - intros [= <-]. by exists [], x, numbers.
  - intros (pre & number & post & -> & Hpre & Hn & ->)%IH.
    exists (x :: pre), number, post. by repeat constructor.
Qed.

Lemma restrict_numbers_None g i cell numbers :
  restrict_numbers g i cell numbers = None ↔
  Forall (λ x, deducible g i cell x = false) numbers.
Proof.
  induction numbers as [|x numbers IH]; simpl; [by split; [constructor|]|].
  destruct (deducible g i cell x) eqn:Hx.
  - split; [done|]. intros [? _]%Forall_cons. congruence.
  - rewrite IH, Forall_cons. tauto.
Qed.

Lemma restrict_numbers_first g i cell pre number post :
  Forall (λ x, deducible g i cell x = false) pre →
  deducible g i cell number = true →
  restrict_numbers g i cell (pre ++ number :: post) = Some (assign i number g).
Proof.
  induction 1 as [|x pre Hx _ IH]; simpl; intros Hn.
  - by rewrite Hn.
  - rewrite Hx. by apply IH.
Qed.

(** A round of the sweep either leaves the state alone or assigns, to a
    cell that is Empty, the first candidate that passes the test. *)
Lemma restrict_cell_cases b g i :
  restrict_cell (b, g) i = (b, g)
  ∨ ∃ cs pre number post,
      g !! i = Some (Cell.Empty cs)
      ∧ cs = pre ++ number :: post
      ∧ Forall (λ x, deducible g i (Cell.Empty cs) x = false) pre
      ∧ deducible g i (Cell.Empty cs) number = true
      ∧ restrict_cell (b, g) i = (true, assign i number g).
Proof.
  unfold restrict_cell. simpl.
  destruct (g !! i) as [[cs|d]|] eqn:Hcell; simpl; [|by left..].
  destruct (restrict_numbers g i (Cell.Empty cs) cs) as [g'|] eqn:Hn; [|by left].
  apply restrict_numbers_Some in Hn as (pre & number & post & -> & Hpre & Hnum & ->).
  right. by exists (pre ++ number :: post), pre, number, post.
Qed.

(** Induction over the assignments of a sweep. *)
Lemma restrict_ind (P : bool → grid → Prop) g :
  P false g →
  (∀ b g1 i cs number,
     P b g1 → g1 !! i = Some (Cell.Empty cs) → number ∈ cs →
     deducible g1 i (Cell.Empty cs) number = true →
     P true (assign i number g1)) →
  P (restrict g).1 (restrict g).2.
Proof.
  intros H0 Hstep. unfold restrict.
  generalize (seq 0 (NCOUNT * NCOUNT)). intros l.
  generalize dependent g. generalize false.
  induction l as [|i l IH]; intros b g Hb; simpl; [done|].
  destruct (restrict_cell_cases b g i) as [->|(cs&pre&number&post&Hc&->&_&Hn&->)].
  - by apply IH.
  - apply IH. eapply Hstep; [done..| |done].
    apply elem_of_app. right. apply list_elem_of_here.
Qed.

(** ** Candidate sets only shrink *)

Lemma cell_shrinks_refl c : cell_shrinks c c.
Proof. destruct c; simpl; [by intros x Hx | done]. Qed.

Lemma cell_shrinks_trans c1 c2 c3 :
  cell_shrinks c1 c2 → cell_shrinks c2 c3 → cell_shrinks c1 c3.
Proof.
  destruct c1, c2, c3; simpl; try done; [|congruence].
  intros H1 H2 x Hx. by apply H1, H2.
Qed.

Lemma cell_shrinks_disable n c : cell_shrinks c (Cell.disable n c).
Proof.
  destruct c as [cs|d]; simpl; [|done].
  intros x Hx. by apply list_elem_of_filter in Hx as [_ Hx].
Qed.

Lemma shrinks_refl g : shrinks g g.
Proof. apply Forall_Forall2_diag, Forall_forall. intros. apply cell_shrinks_refl. Qed.

Lemma shrinks_trans g1 g2 g3 : shrinks g1 g2 → shrinks g2 g3 → shrinks g1 g3.
Proof.
  intros H12 H23. eapply Forall2_trans; [|done..].
  intros ???. apply cell_shrinks_trans.
Qed.

Lemma shrinks_length g g' : shrinks g g' → length g' = length g.
Proof. intros H. symmetry. by eapply Forall2_length. Qed.

Lemma shrinks_lookup g g' i c :
  shrinks g g' → g !! i = Some c → ∃ c', g' !! i = Some c' ∧ cell_shrinks c c'.
Proof. intros H Hc. by eapply Forall2_lookup_l. Qed.

Lemma shrinks_Filled g g' i d :
  shrinks g g' → g !! i = Some (Cell.Filled d) → g' !! i = Some (Cell.Filled d).
Proof.
  intros H Hc. destruct (shrinks_lookup _ _ _ _ H Hc) as ([cs|d'] & Hc' & Hs); [done|].
  simpl in Hs. by subst.
Qed.

Lemma shrinks_Empty g g' i cs' :
  shrinks g g' → g' !! i = Some (Cell.Empty cs') →
  ∃ cs, g !! i = Some (Cell.Empty cs) ∧ cs' ⊆ cs.
Proof.
  intros H Hc'. destruct (Forall2_lookup_r _ _ _ _ _ H Hc') as ([cs|d] & Hc & Hs); [|done].
  by exists cs.
Qed.

Lemma updatePossibilities_shrinks index g : shrinks g (updatePossibilities index g).
Proof.
  destruct (g !! index) as [cell|] eqn:Hcell.
  - apply Forall2_same_length_lookup. split; [by rewrite updatePossibilities_length|].
    intros j c c' Hc. rewrite (updatePossibilities_lookup _ _ _ _ Hcell), Hc.
    case_decide; intros [= <-]; [apply cell_shrinks_disable | apply cell_shrinks_refl].
  - unfold updatePossibilities. rewrite Hcell. apply shrinks_refl.
Qed.

Lemma assign_shrinks i n g cs :
  g !! i = Some (Cell.Empty cs) → shrinks g (assign i n g).
Proof.
  intros Hcell. eapply shrinks_trans; [|apply updatePossibilities_shrinks].
  apply Forall2_same_length_lookup. split; [by rewrite length_alter|].
  intros j c c' Hc. destruct (decide (i = j)) as [->|Hij].
  - rewrite list_lookup_alter_eq, Hc. intros [= <-]. by simplify_eq.
  - rewrite list_lookup_alter_ne, Hc by done. intros [= <-]. apply cell_shrinks_refl.
Qed.

Lemma restrict_shrinks g : shrinks g (restrict g).2.
Proof.
  apply (restrict_ind (λ _ g1, shrinks g g1)); [apply shrinks_refl|].
  intros _ g1 i cs number Hg1 Hc _ _.
  eapply shrinks_trans; [done|]. by eapply assign_shrinks.
Qed.

(** C8: along any execution of propagation, made of sweeps and of the
    eliminations that follow an assignment, every cell that is still Empty
    was Empty before, with a candidate set that contains the one it has
    now, and every Filled cell keeps its digit: no digit comes back. *)
Theorem propagation_only_shrinks g g' :
  rtc propagation g g' →
  length g' = length g
  ∧ (∀ i cs', g' !! i = Some (Cell.Empty cs') →
       ∃ cs, g !! i = Some (Cell.Empty cs) ∧ ∀ d, d ∈ cs' → d ∈ cs)
  ∧ (∀ i d, g !! i = Some (Cell.Filled d) → g' !! i = Some (Cell.Filled d)).
Proof.
  intros Hrtc. assert (Hs : shrinks g g').
  { induction Hrtc as [g|g1 g2 g3 Hstep _ IH]; [apply shrinks_refl|].
    eapply shrinks_trans; [|done].
    destruct Hstep; [apply restrict_shrinks | apply updatePossibilities_shrinks]. }
  split; [by apply shrinks_length|]. split.
  - intros i cs' Hc'. by apply (shrinks_Empty g g' i cs' Hs).
  - intros i d. by apply shrinks_Filled.
Qed.

(** ** Counting the Empty cells *)

Lemma count_empty_cons c g :
  count_empty (c :: g) = (if Cell.isEmpty c then 1 else 0) + count_empty g.
Proof.
  unfold count_empty. rewrite filter_cons.
  destruct (Cell.isEmpty c); by case_decide.
Qed.

Lemma count_empty_ext g g' :
  Forall2 (λ c c', Cell.isEmpty c = Cell.isEmpty c') g g' →
  count_empty g = count_empty g'.
Proof.
  induction 1 as [|c c' g g' Hc _ IH]; [done|].
  by rewrite !count_empty_cons, Hc, IH.
Qed.

Lemma count_empty_fill g g' i cs d :
  length g' = length g →
  g !! i = Some (Cell.Empty cs) → g' !! i = Some (Cell.Filled d) →
  (∀ j c c', j ≠ i → g !! j = Some c → g' !! j = Some c' →
             Cell.isEmpty c = Cell.isEmpty c') →
  count_empty g = S (count_empty g').
Proof.
  revert g' i. induction g as [|c g IH]; intros [|c' g'] i Hlen Hi Hi' Hrest;
    simplify_eq/=; try done.
  rewrite !count_empty_cons. destruct i as [|i]; simplify_eq/=.
  - f_equal. apply count_empty_ext, Forall2_same_length_lookup.
    split; [done|]. intros j c c' Hc Hc'. by apply (Hrest (S j)).
  - rewrite (Hrest 0 c c') by done.
    rewrite (IH g' i) by (try done; intros j ????; by apply (Hrest (S j)); [lia|..]).
    lia.
Qed.

Lemma count_empty_assign i n g cs :
  g !! i = Some (Cell.Empty cs) → count_empty g = S (count_empty (assign i n g)).
Proof.
  intros Hcell. assert (Hi : i < length g) by (by eapply lookup_lt_Some).
  eapply count_empty_fill; [by rewrite assign_length|done|by apply assign_lookup_eq|].
  intros j c c' Hj Hc. destruct (assign_lookup_ne i n g j c Hi Hj Hc) as [->| ->];
    intros [= <-]; [done|]. by rewrite isEmpty_disable.
Qed.

(** A sweep that reports progress has assigned a cell; one that reports
    none has changed nothing. *)
Lemma restrict_progress g :
  (if (restrict g).1 then count_empty (restrict g).2 < count_empty g
   else (restrict g).2 = g).
Proof.
  apply (restrict_ind (λ b g1, count_empty g1 ≤ count_empty g ∧
    if b then count_empty g1 < count_empty g else g1 = g)); [done|].
  intros b g1 i cs number [Hle _] Hc _ _.
  rewrite (count_empty_assign i number g1 cs Hc) in Hle. lia.
Qed.

Lemma restrict_no_progress g : (restrict g).1 = false → (restrict g).2 = g.
Proof. intros Hno. pose proof (restrict_progress g) as Hg. by rewrite Hno in Hg. Qed.

(** C7: a sweep that returns false has changed no cell, and the sweep
    run again from the state it leaves changes no cell and returns false
    again. *)
Theorem restrict_fixed_point g :
  (restrict g).1 = false →
  (restrict g).2 = g ∧ restrict (restrict g).2 = (false, (restrict g).2).
Proof.
  intros Hno. pose proof (restrict_no_progress g Hno) as Hg.
  split; [done|]. rewrite Hg. destruct (restrict g) as [b g1]. simpl in *. congruence.
Qed.

(** ** The tests of [solve] *)

Lemma isFilled_true g : isFilled g = true ↔ ∀ i c, g !! i = Some c → Cell.isEmpty c = false.
Proof.
  unfold isFilled, none_of. rewrite negb_true_iff, <- not_true_iff_false, existsb_exists.
  split.
  - intros Hno i c Hc. apply not_true_iff_false. intros He. apply Hno.
    exists c. split; [|done]. by apply list_elem_of_In, list_elem_of_lookup_2 with i.
  - intros Hall (c & Hc%list_elem_of_In & He).
    apply list_elem_of_lookup in Hc as [i Hc]. by rewrite (Hall i c Hc) in He.
Qed.

Lemma isFilled_count_empty g : isFilled g = true ↔ count_empty g = 0.
Proof.
  rewrite isFilled_true. induction g as [|c g IH].
  - split; [done|]. intros _ i c. by rewrite lookup_nil.
  - rewrite count_empty_cons. split.
    + intros Hall. rewrite (Hall 0 c) by done.
      apply IH. intros i c' Hc'. by apply (Hall (S i)).
    + intros H0. destruct (Cell.isEmpty c) eqn:Hc; [lia|].
      intros [|i] c'; simpl; [by intros [= <-]|]. apply IH. lia.
Qed.

Lemma isSolvable_true g : isSolvable g = true ↔ ∀ i, g !! i ≠ Some (Cell.Empty []).
Proof.
  unfold isSolvable, none_of. rewrite negb_true_iff, <- not_true_iff_false, existsb_exists.
  split.
  - intros Hno i Hc. apply Hno. exists (Cell.Empty []).
    split; [|done]. by apply list_elem_of_In, list_elem_of_lookup_2 with i.
  - intros Hall (c & Hc%list_elem_of_In & ->%isInconsistent_spec).
    apply list_elem_of_lookup in Hc as [i Hc]. by apply (Hall i).
Qed.

(** On a grid that is not filled [find_if] stops at a cell of the grid,
    the first that is Empty. *)
Lemma find_empty_not_filled g :
  isFilled g = false →
  ∃ index cs, find_empty g = Some (index, Cell.Empty cs)
    ∧ g !! index = Some (Cell.Empty cs) ∧ index < length g
    ∧ ∀ j c, j < index → g !! j = Some c → Cell.isEmpty c = false.
Proof.
  intros Hnf. unfold find_empty.
  destruct (list_find _ g) as [[index cell]|] eqn:Hfind.
  - apply list_find_Some in Hfind as (Hc & [cs ->]%isEmpty_true & Hfirst).
    exists index, cs. repeat split; [done|by eapply lookup_lt_Some|].
    intros j c Hj Hcj. apply not_true_iff_false. by eapply Hfirst.
  - apply list_find_None in Hfind. assert (isFilled g = true); [|congruence].
    apply isFilled_true. intros i c Hc. apply not_true_iff_false.
    rewrite Forall_forall in Hfind. by eapply Hfind, list_elem_of_lookup_2.
Qed.

(** ** The search *)

Lemma assume_loop_ext slv1 slv2 index poss g :
  (∀ p, p ∈ poss → slv1 (assign index p g) = slv2 (assign index p g)) →
  assume_loop slv1 index poss g = assume_loop slv2 index poss g.
Proof.
  induction poss as [|p poss IH]; intros Hext; simpl; [done|].
  rewrite (Hext p) by apply list_elem_of_here.
  rewrite IH; [done|]. intros q Hq. by apply Hext, list_elem_of_further.
Qed.

(** What a run of the loop of [assumeNumber] comes to, for any solver
    [slv] called on the branches. *)
Lemma assume_loop_cases slv index poss g :
  match assume_loop slv index poss g with
  | Returned false g' =>
      g' = g ∧ Forall (λ p, ∃ g1, slv (assign index p g) = Returned false g1) poss
  | Returned true g' =>
      ∃ pre p post, poss = pre ++ p :: post
        ∧ Forall (λ q, ∃ g1, slv (assign index q g) = Returned false g1) pre
        ∧ slv (assign index p g) = Returned true g'
  | PastTheEnd => ∃ p, p ∈ poss ∧ slv (assign index p g) = PastTheEnd
  | OutOfFuel => ∃ p, p ∈ poss ∧ slv (assign index p g) = OutOfFuel
  end.
Proof.
  induction poss as [|p poss IH]; simpl; [by split|].
  destruct (slv (assign index p g)) as [[] g1| |] eqn:Hp.
  - by exists [], p, poss.
  - destruct (assume_loop slv index poss g) as [[] g'| |].
    + destruct IH as (pre & q & post & -> & Hpre & Hq).
      exists (p :: pre), q, post. split; [done|]. split; [|done].
      constructor; [by exists g1 | done].
    + destruct IH as [-> Hall]. split; [done|]. constructor; [by exists g1 | done].
    + destruct IH as (q & Hq & Hslv). exists q. split; [by apply list_elem_of_further | done].
    + destruct IH as (q & Hq & Hslv). exists q. split; [by apply list_elem_of_further | done].
  - exists p. split; [apply list_elem_of_here | done].
  - exists p. split; [apply list_elem_of_here | done].
Qed.

(** C10: where [solve] calls [assumeNumber], that is on the grid a sweep
    without progress leaves of a grid that is not filled, [find_if] stops
    at a cell of the grid, which is Empty; it never gives the end
    iterator there. *)
Theorem assumeNumber_finds_empty g :
  isFilled g = false → (restrict g).1 = false →
  ∃ index cs,
    find_empty (restrict g).2 = Some (index, Cell.Empty cs)
    ∧ index < length (restrict g).2
    ∧ (restrict g).2 !! index = Some (Cell.Empty cs).
Proof.
  intros Hnf Hno. rewrite (restrict_no_progress g Hno).
  destruct (find_empty_not_filled g Hnf) as (index & cs & Hfind & Hc & Hlt & _).
  by exists index, cs.
Qed.

(** ** Termination *)

Lemma solve_fuel_enough fuel g :
  count_empty g < fuel → ∃ b g', solve_fuel fuel g = Returned b g'.
Proof.
  revert g. induction fuel as [|fuel IH]; intros g Hfuel; [lia|]. simpl.
  destruct (isFilled g || negb (isSolvable g)) eqn:Htest; [by eauto|].
  apply orb_false_iff in Htest as [Hnf _].
  pose proof (restrict_progress g) as Hprog.
  destruct (restrict g) as [[] g1]; simpl in *; [apply IH; lia|]. subst g1.
  destruct (find_empty_not_filled g Hnf) as (index & cs & Hfind & Hc & _).
  unfold assumeNumber. rewrite Hfind. simpl.
  pose proof (assume_loop_cases (solve_fuel fuel) index cs g) as Hcases.
  assert (Hbranch : ∀ p, ∃ b g', solve_fuel fuel (assign index p g) = Returned b g').
  { intros p. apply IH. rewrite (count_empty_assign index p g cs Hc) in Hfuel. lia. }
  destruct (assume_loop _ index cs g) as [b g'| |]; [by eauto|..];
    destruct Hcases as (p & _ & Hp); destruct (Hbranch p) as (b & g' & Hb); congruence.
Qed.

(** Any fuel above the number of Empty cells gives the same outcome. *)
Lemma solve_fuel_stable fuel1 fuel2 g :
  count_empty g < fuel1 → count_empty g < fuel2 →
  solve_fuel fuel1 g = solve_fuel fuel2 g.
Proof.
  revert fuel2 g. induction fuel1 as [|fuel1 IH]; intros [|fuel2] g H1 H2; try lia.
  simpl. destruct (isFilled g || negb (isSolvable g)) eqn:Htest; [done|].
  apply orb_false_iff in Htest as [Hnf _].
  pose proof (restrict_progress g) as Hprog.
  destruct (restrict g) as [[] g1]; simpl in *; [apply IH; lia|]. subst g1.
  destruct (find_empty_not_filled g Hnf) as (index & cs & Hfind & Hc & _).
  unfold assumeNumber. rewrite Hfind. simpl.
  apply assume_loop_ext. intros p _. rewrite (count_empty_assign index p g cs Hc) in H1, H2.
  apply IH; lia.
Qed.

Lemma solve_fuel_solve fuel g : count_empty g < fuel → solve_fuel fuel g = solve g.
Proof. intros Hfuel. apply solve_fuel_stable; [done | lia]. Qed.

(** The loop of [solve], one round unfolded. *)
Lemma solve_unfold g :
  solve g =
  if isFilled g || negb (isSolvable g) then Returned (isSolvable g) g
  else if negb (restrict g).1 then assumeNumber solve (restrict g).2
  else solve (restrict g).2.
Proof.
  unfold solve at 1. simpl.
  destruct (isFilled g || negb (isSolvable g)) eqn:Htest; [done|].
  apply orb_false_iff in Htest as [Hnf _].
  pose proof (restrict_progress g) as Hprog.
  destruct (restrict g) as [[] g1]; simpl in *; [apply solve_fuel_solve; lia|]. subst g1.
  destruct (find_empty_not_filled g Hnf) as (index & cs & Hfind & Hc & _).
  unfold assumeNumber. rewrite Hfind. simpl.
  apply assume_loop_ext. intros p _. apply solve_fuel_solve.
  rewrite (count_empty_assign index p g cs Hc). lia.
Qed.

(** C9: [solve] returns on every grid.  A sweep that reports progress
    leaves fewer Empty cells, an assumption of [assumeNumber] fills one
    more cell, and with one unit of fuel for each Empty cell and one more
    the embedding of [solve] returns a flag and a grid; more fuel changes
    nothing. *)
Theorem solve_terminates g :
  (∃ b g', solve g = Returned b g')
  ∧ (∀ fuel, count_empty g < fuel → solve_fuel fuel g = solve g)
  ∧ ((restrict g).1 = true → count_empty (restrict g).2 < count_empty g)
  ∧ (∀ index cs p, g !! index = Some (Cell.Empty cs) →
       count_empty (assign index p g) < count_empty g).
Proof.
  split; [apply solve_fuel_enough; lia|].
  split; [intros fuel; apply solve_fuel_solve|]. split.
  - intros Hp. pose proof (restrict_progress g) as Hprog. by rewrite Hp in Hprog.
  - intros index cs p Hc. rewrite (count_empty_assign index p g cs Hc). lia.
Qed.

Lemma solve_returns g : ∃ b g', solve g = Returned b g'.
Proof. apply solve_fuel_enough. lia. Qed.

Lemma solve_fuel_true_filled fuel g g' :
  solve_fuel fuel g = Returned true g' → isFilled g' = true.
Proof.
  revert g. induction fuel as [|fuel IH]; intros g; simpl; [done|].
  destruct (isFilled g || negb (isSolvable g)) eqn:Htest.
  - intros [= Hs <-]. rewrite Hs in Htest. by rewrite orb_false_r in Htest.
  - destruct (restrict g) as [[] g1]; simpl; [apply IH|].
    unfold assumeNumber. destruct (find_empty g1) as [[index cell]|]; [|done].
    intros Hloop. pose proof (assume_loop_cases (solve_fuel fuel) index
      (Cell.possibilities cell) g1) as Hcases.
    rewrite Hloop in Hcases. destruct Hcases as (_ & p & _ & _ & _ & Hp). by eapply IH.
Qed.

(** C2: the contract of [solve].  On a filled grid it returns true and on
    a grid with an Empty cell without candidates it returns false, the grid
    untouched in both cases; otherwise it runs a sweep, and goes round the
    loop again from the grid the sweep leaves when the sweep reports
    progress, and returns what [assumeNumber] returns when it reports none.
    When [solve] returns true, the grid it leaves is filled. *)
Theorem solve_contract g :
  (isFilled g = true → solve g = Returned true g)
  ∧ (∀ index, g !! index = Some (Cell.Empty []) → solve g = Returned false g)
  ∧ (isFilled g = false → (∀ index, g !! index ≠ Some (Cell.Empty [])) →
       (restrict g).1 = true → solve g = solve (restrict g).2)
  ∧ (isFilled g = false → (∀ index, g !! index ≠ Some (Cell.Empty [])) →
       (restrict g).1 = false →
       isFilled (restrict g).2 = false ∧ solve g = assumeNumber solve (restrict g).2)
  ∧ (∀ g', solve g = Returned true g' → isFilled g' = true).
Proof.
  split; [|split; [|split; [|split]]].
  - intros Hf. rewrite solve_unfold, Hf. simpl. f_equal.
    apply isSolvable_true. intros i Hc.
    by pose proof (proj1 (isFilled_true g) Hf i _ Hc).
  - intros index Hc. rewrite solve_unfold.
    destruct (isSolvable g) eqn:Hs; [|by rewrite orb_true_r].
    exfalso. by eapply isSolvable_true.
  - intros Hnf Hs%isSolvable_true Hp. by rewrite solve_unfold, Hnf, Hs, Hp.
  - intros Hnf Hs%isSolvable_true Hp. split.
    + by rewrite (restrict_no_progress g Hp).
    + by rewrite solve_unfold, Hnf, Hs, Hp.
  - intros g'. apply solve_fuel_true_filled.
Qed.

(** C5: [assumeNumber] on a grid [g] whose first Empty cell is [index],
    with [solve] as the recursive call.  Every candidate of the cell is
    tried on the grid [g] itself, of which the backup is the copy.  The
    search returns false only after the branch of every candidate has
    failed, and the grid is then [g] again, as it was before the first
    assumption; it returns true at the first candidate whose branch
    succeeds, after the branches of all the candidates before it have
    failed, and keeps the grid that branch left. *)
Theorem assumeNumber_restores g index cell :
  find_empty g = Some (index, cell) →
  ∃ b g', assumeNumber solve g = Returned b g'
    ∧ (b = false →
         g' = g
         ∧ ∀ p, p ∈ Cell.possibilities cell →
                ∃ g1, solve (assign index p g) = Returned false g1)
    ∧ (b = true →
         ∃ pre p post, Cell.possibilities cell = pre ++ p :: post
           ∧ (∀ q, q ∈ pre → ∃ g1, solve (assign index q g) = Returned false g1)
           ∧ solve (assign index p g) = Returned true g').
Proof.
  intros Hfind. unfold assumeNumber. rewrite Hfind.
  generalize (Cell.possibilities cell). intros poss.
  pose proof (assume_loop_cases solve index poss g) as Hcases.
  destruct (assume_loop solve index poss g) as [[] g'| |].
  - exists true, g'. split; [done|]. split; [done|]. intros _.
    destruct Hcases as (pre & p & post & -> & Hpre & Hp).
    exists pre, p, post. rewrite Forall_forall in Hpre. by eauto.
  - exists false, g'. split; [done|]. split; [|done]. intros _.
    destruct Hcases as [-> Hall]. rewrite Forall_forall in Hall. by eauto.
  - destruct Hcases as (p & _ & Hp).
    destruct (solve_returns (assign index p g)) as (b & g' & Hb). congruence.
  - destruct Hcases as (p & _ & Hp).
    destruct (solve_returns (assign index p g)) as (b & g' & Hb). congruence.
Qed.

(** ** The groups hold no cell twice *)

Lemma neighbor_at_inj TYPE gi i2 i2' :
  gi < NCOUNT → i2 < NCOUNT → i2' < NCOUNT →
  neighbor_at TYPE gi i2 = neighbor_at TYPE gi i2' → i2 = i2'.
Proof.
  intros Hgi Hi2 Hi2'. assert (Hn : 0 < SIZE) by (apply SIZE_pos; lia).
  destruct TYPE; simpl; [lia|nia|]. intros Heq.
  destruct (split_div_mod SIZE i2 Hn) as [Hc Hd].
  destruct (split_div_mod SIZE i2' Hn) as [Hc' Hd'].
  set (c := i2 / SIZE) in *. set (d := i2 mod SIZE) in *.
  set (c' := i2' / SIZE) in *. set (d' := i2' mod SIZE) in *.
  assert (HdN : d < NCOUNT ∧ d' < NCOUNT) by (unfold NCOUNT; nia).
  assert (c * NCOUNT + d = c' * NCOUNT + d') as Heq' by lia.
  destruct (div_mod_pair NCOUNT c d) as [Hq Hr]; [lia|].
  destruct (div_mod_pair NCOUNT c' d') as [Hq' Hr']; [lia|].
  rewrite Heq' in Hq, Hr. lia.
Qed.

Lemma m_neighbors_NoDup TYPE gi : gi < NCOUNT → NoDup (m_neighbors TYPE gi).
Proof.
  intros Hgi. rewrite m_neighbors_eq by done.
  apply NoDup_fmap_2_strong; [|apply NoDup_seq].
  intros x y Hx%elem_of_seq Hy%elem_of_seq. apply neighbor_at_inj; lia.
Qed.

Lemma NoDup_fmap_inj_on {A B} (f : A → B) (l : list A) :
  NoDup l →
  NoDup (f <$> l) ↔ ∀ x y, x ∈ l → y ∈ l → f x = f y → x = y.
Proof.
  intros Hl. split; [|intros; by apply NoDup_fmap_2_strong].
  induction Hl as [|a l Ha Hl IH]; intros Hf x y Hx Hy Hxy.
  - by apply elem_of_nil in Hx.
  - rewrite fmap_cons in Hf. apply NoDup_cons in Hf as [Hfa Hf].
    apply elem_of_cons in Hx as [->|Hx]; apply elem_of_cons in Hy as [->|Hy]; [done|..].
    + destruct Hfa. rewrite Hxy. by apply list_elem_of_fmap_2.
    + destruct Hfa. rewrite <- Hxy. by apply list_elem_of_fmap_2.
    + by apply IH.
Qed.

(** ** The validation *)

Lemma fn_testUnique_from_spec numbers g nbs :
  (∀ k, k ∈ nbs → k < length g) →
  fn_testUnique_from numbers g nbs = true ↔
  NoDup (number_at g <$> nbs) ∧ ∀ n, Some n ∈ number_at g <$> nbs → n ∉ numbers.
Proof.
  revert numbers. induction nbs as [|k nbs IH]; intros numbers Hin; simpl.
  - split; [|done]. intros _. split; [constructor|]. by intros n ?%elem_of_nil.
  - destruct (lookup_lt_is_Some_2 g k) as [cell Hcell];
      [apply Hin, list_elem_of_here|].
    assert (Hk : number_at g k = Some (Cell.number unfilled cell)).
    { unfold number_at. by rewrite Hcell. }
    rewrite Hcell, Hk, andb_true_iff, bool_decide_eq_true, NoDup_cons.
    rewrite IH by (intros; by apply Hin, list_elem_of_further).
    set (n := Cell.number unfilled cell). split.
    + intros (Hn & Hnd & Hnot). split; [split; [|done]|].
      * intros Hel%Hnot. set_solver.
      * intros m [[= ->]|Hm]%elem_of_cons; [done|]. apply Hnot in Hm. set_solver.
    + intros ([Hn Hnd] & Hnot). split; [apply Hnot, list_elem_of_here|].
      split; [done|]. intros m Hm [->%elem_of_singleton|Hmn]%elem_of_union; [done|].
      by apply (Hnot m); [apply list_elem_of_further|].
Qed.

Lemma fn_testUnique_spec g nbs :
  (∀ k, k ∈ nbs → k < length g) →
  fn_testUnique g nbs = true ↔ NoDup (number_at g <$> nbs).
Proof.
  intros Hin. unfold fn_testUnique. rewrite fn_testUnique_from_spec by done.
  split; [by intros [? _]|]. intros Hnd. split; [done|]. set_solver.
Qed.

Lemma isCorrect_NoDup g :
  length g = NCOUNT * NCOUNT →
  isCorrect g = true ↔
  ∀ TYPE gi, gi < NCOUNT → NoDup (number_at g <$> m_neighbors TYPE gi).
Proof.
  intros Hlen. unfold isCorrect, all_of. rewrite forallb_forall.
  assert (Hrange : ∀ TYPE gi k, gi < NCOUNT → k ∈ m_neighbors TYPE gi → k < length g).
  { intros TYPE gi k Hgi Hk. rewrite Hlen. by eapply m_neighbors_group. }
  split.
  - intros Hall TYPE gi Hgi.
    assert (Hgi' : In gi (seq 0 NCOUNT)) by (apply list_elem_of_In, elem_of_seq; lia).
    apply Hall in Hgi'. apply andb_true_iff in Hgi' as [[H1 H2]%andb_true_iff H3].
    destruct TYPE; (apply fn_testUnique_spec; [intros k; by apply Hrange|done]).
  - intros Hall gi Hgi%list_elem_of_In%elem_of_seq.
    rewrite !andb_true_iff. split; [split|];
      (apply fn_testUnique_spec; [intros k; by apply Hrange; lia | apply Hall; lia]).
Qed.

(** [isCorrect] compares, inside every group, what [number()] reports for
    the cells. *)
Lemma isCorrect_spec g :
  length g = NCOUNT * NCOUNT →
  isCorrect g = true ↔
  ∀ TYPE j k, j < NCOUNT * NCOUNT → k < NCOUNT * NCOUNT →
    group_of TYPE j = group_of TYPE k → number_at g j = number_at g k → j = k.
Proof.
  intros Hlen. rewrite isCorrect_NoDup by done. split.
  - intros Hnd TYPE j k Hj Hk Hgroup Heq.
    pose proof (group_of_lt TYPE j Hj) as Hgi.
    specialize (Hnd TYPE _ Hgi).
    rewrite NoDup_fmap_inj_on in Hnd by (by apply m_neighbors_NoDup).
    apply Hnd; [by apply elem_of_own_group| |done].
    rewrite Hgroup. by apply elem_of_own_group.
  - intros Hinj TYPE gi Hgi.
    apply NoDup_fmap_inj_on; [by apply m_neighbors_NoDup|].
    intros j k Hj Hk. destruct (m_neighbors_group TYPE gi j Hgi Hj) as [Hj' Hgj].
    destruct (m_neighbors_group TYPE gi k Hgi Hk) as [Hk' Hgk].
    apply (Hinj TYPE); [done..|congruence].
Qed.

Lemma groups_filled_distinct_filled g i c :
  length g = NCOUNT * NCOUNT → groups_filled_distinct g →
  g !! i = Some c → Cell.isEmpty c = false.
Proof.
  intros Hlen [Hall _] Hc. assert (Hi : i < NCOUNT * NCOUNT).
  { rewrite <- Hlen. by eapply lookup_lt_Some. }
  destruct (Hall i Hi) as [d Hd]. by simplify_eq.
Qed.

Lemma isCorrect_filled g :
  length g = NCOUNT * NCOUNT → isFilled g = true →
  isCorrect g = true ↔ groups_filled_distinct g.
Proof.
  intros Hlen Hf.
  assert (Hcell : ∀ i, i < NCOUNT * NCOUNT → ∃ d, g !! i = Some (Cell.Filled d)).
  { intros i Hi. rewrite <- Hlen in Hi.
    destruct (lookup_lt_is_Some_2 g i Hi) as [[cs|d] Hc]; [|by exists d].
    by pose proof (proj1 (isFilled_true g) Hf i _ Hc). }
  rewrite isCorrect_spec by done. split.
  - intros Hok. split; [done|]. intros TYPE i j d Hi Hj HT.
    apply (Hok TYPE); [rewrite <- Hlen; by eapply lookup_lt_Some..|done|].
    unfold number_at. by rewrite Hi, Hj.
  - intros [_ Hdistinct] TYPE j k Hj Hk HT Heq.
    destruct (Hcell j Hj) as [dj Hdj]. destruct (Hcell k Hk) as [dk Hdk].
    unfold number_at in Heq. rewrite Hdj, Hdk in Heq. simplify_eq/=.
    by apply (Hdistinct TYPE j k dk).
Qed.

(** C6, amended: on a grid of [NCOUNT * NCOUNT] cells [isCorrect] returns
    true iff no two cells with the same row number, the same column number
    or the same box number report the same number through [number()]; it
    does not test whether a cell is Filled.  On a filled grid that is: iff
    every cell is Filled and no two cells of a row, a column or a box
    carry the same digit. *)
Theorem isCorrect_distinct_numbers g :
  length g = NCOUNT * NCOUNT →
  (isCorrect g = true ↔
   ∀ TYPE j k, j < NCOUNT * NCOUNT → k < NCOUNT * NCOUNT →
     group_of TYPE j = group_of TYPE k → number_at g j = number_at g k → j = k)
  ∧ (isFilled g = true → (isCorrect g = true ↔ groups_filled_distinct g)).
Proof.
  intros Hlen. split; [by apply isCorrect_spec | by apply isCorrect_filled].
Qed.

(** ** Legal grids *)

(** Every group of a legal grid holds every digit. *)
Lemma legal_group_has_digit s TYPE gi d :
  legal s → gi < NCOUNT → 1 ≤ d ≤ NCOUNT →
  ∃ k, k ∈ m_neighbors TYPE gi ∧ s !! k = Some d.
Proof.
  intros (Hlen & Hrange & Hinj) Hgi Hd.
  set (l := m_neighbors TYPE gi). set (f := λ k, default 0 (s !! k)).
  assert (Hl : ∀ k, k ∈ l → s !! k = Some (f k) ∧ group_of TYPE k = gi).
  { intros k [Hk Hg]%m_neighbors_group; [|done]. rewrite <- Hlen in Hk.
    destruct (lookup_lt_is_Some_2 s k Hk) as [x Hx]. unfold f. by rewrite Hx. }
  assert (Hnd : NoDup (f <$> l)).
  { apply NoDup_fmap_2_strong; [|by apply m_neighbors_NoDup].
    intros x y [Hx Hgx]%Hl [Hy Hgy]%Hl Hxy. apply (Hinj TYPE x y (f x)); congruence. }
  assert (Hperm : f <$> l ≡ₚ seq 1 NCOUNT).
  { apply submseteq_length_Permutation.
    - apply NoDup_submseteq; [done|]. intros x (k & -> & [Hk _]%Hl)%list_elem_of_fmap.
      apply Hrange in Hk. apply elem_of_seq. lia.
    - unfold l. by rewrite length_fmap, length_seq, m_neighbors_length. }
  assert (Hin : d ∈ f <$> l) by (rewrite Hperm; apply elem_of_seq; lia).
  apply list_elem_of_fmap in Hin as (k & -> & Hk). exists k. split; [done|].
  by apply Hl.
Qed.

Lemma extends_to_lookup g s i c :
  extends_to g s → g !! i = Some c → ∃ d, s !! i = Some d ∧ cell_extends c d.
Proof. intros H Hc. by eapply Forall2_lookup_l. Qed.

Lemma extends_to_consistent g s TYPE i j d :
  legal s → extends_to g s →
  g !! i = Some (Cell.Filled d) → g !! j = Some (Cell.Filled d) →
  group_of TYPE i = group_of TYPE j → i = j.
Proof.
  intros (_ & _ & Hinj) Hext Hi Hj Hg.
  destruct (extends_to_lookup g s i _ Hext Hi) as (di & Hsi & <-).
  destruct (extends_to_lookup g s j _ Hext Hj) as (dj & Hsj & <-).
  by apply (Hinj TYPE i j d).
Qed.

(** ** The elimination keeps the grid well formed *)

Lemma updatePossibilities_lookup_Filled index d g j :
  g !! index = Some (Cell.Filled d) →
  updatePossibilities index g !! j =
  if decide (in_groups index j) then Cell.disable d <$> g !! j else g !! j.
Proof. intros Hc. by rewrite (updatePossibilities_lookup _ _ _ _ Hc). Qed.

Lemma updatePossibilities_extends index d g s :
  length g = NCOUNT * NCOUNT → legal s → extends_to g s →
  g !! index = Some (Cell.Filled d) →
  extends_to (updatePossibilities index g) s.
Proof.
  intros Hlen Hlegal Hext Hc.
  assert (Hindex : index < NCOUNT * NCOUNT).
  { rewrite <- Hlen. by eapply lookup_lt_Some. }
  destruct (extends_to_lookup g s index _ Hext Hc) as (? & Hs & <-).
  apply Forall2_same_length_lookup. split.
  { rewrite updatePossibilities_length. by eapply Forall2_length. }
  intros j c x. rewrite (updatePossibilities_lookup_Filled _ _ _ _ Hc).
  intros Hj Hx. assert (Hold : ∃ c0, g !! j = Some c0 ∧ cell_extends c0 x
    ∧ (c = c0 ∨ in_groups index j ∧ c = Cell.disable d c0)).
  { destruct (g !! j) as [c0|] eqn:Hc0; [|by case_decide].
    destruct (extends_to_lookup g s j _ Hext Hc0) as (x' & Hx' & Hcx).
    exists c0. split; [done|]. split; [congruence|].
    case_decide; simplify_eq/=; auto. }
  destruct Hold as (c0 & Hc0 & Hcx & [->|[Hin ->]]); [done|].
  destruct c0 as [cs|d0]; simpl in *; [|done].
  apply list_elem_of_filter. split; [|done]. intros ->.
  apply in_groups_iff in Hin as [_ [TYPE HT]]; [|done].
  destruct Hlegal as (_ & _ & Hinj).
  assert (j = index) by (by apply (Hinj TYPE j index d)). congruence.
Qed.

Lemma updatePossibilities_eliminated_at index d g :
  length g = NCOUNT * NCOUNT → g !! index = Some (Cell.Filled d) →
  eliminated_at (updatePossibilities index g) index.
Proof.
  intros Hlen Hc TYPE j d' cs.
  assert (Hindex : index < NCOUNT * NCOUNT).
  { rewrite <- Hlen. by eapply lookup_lt_Some. }
  rewrite (shrinks_Filled _ _ _ _ (updatePossibilities_shrinks index g) Hc).
  intros [= <-] Hj HT.
  assert (Hjlt : j < NCOUNT * NCOUNT).
  { rewrite <- Hlen, <- (updatePossibilities_length index g). by eapply lookup_lt_Some. }
  rewrite (updatePossibilities_lookup_Filled _ _ _ _ Hc), decide_True in Hj.
  - destruct (g !! j) as [[cs0|d0]|]; simplify_eq/=.
    rewrite list_elem_of_filter. tauto.
  - apply in_groups_iff; [done|]. split; [done|]. by exists TYPE.
Qed.

Lemma eliminated_at_shrinks g g' i :
  shrinks g g' → (∃ d, g !! i = Some (Cell.Filled d)) →
  eliminated_at g i → eliminated_at g' i.
Proof.
  intros Hs [d Hi] Helim TYPE j d' cs' Hi' Hj HT.
  rewrite (shrinks_Filled _ _ _ _ Hs Hi) in Hi'. simplify_eq.
  destruct (shrinks_Empty _ _ _ _ Hs Hj) as (cs & Hcs & Hsub).
  intros Hd. by apply (Helim TYPE j d' cs), Hsub.
Qed.

Lemma updatePossibilities_Filled_inv index g j d :
  updatePossibilities index g !! j = Some (Cell.Filled d) → g !! j = Some (Cell.Filled d).
Proof.
  destruct (g !! index) as [cell|] eqn:Hcell.
  - rewrite (updatePossibilities_lookup _ _ _ _ Hcell).
    destruct (g !! j) as [[cs|d0]|]; by case_decide.
  - unfold updatePossibilities. by rewrite Hcell.
Qed.

Lemma assign_Filled_inv i n g j d :
  j ≠ i → assign i n g !! j = Some (Cell.Filled d) → g !! j = Some (Cell.Filled d).
Proof.
  intros Hj Hc%updatePossibilities_Filled_inv. by rewrite list_lookup_alter_ne in Hc.
Qed.

Lemma assign_well_formed i n g cs :
  well_formed g → g !! i = Some (Cell.Empty cs) → n ∈ cs → well_formed (assign i n g).
Proof.
  intros [Hlen Helim Hcons Hrange Hdigits] Hc Hn.
  assert (Hi : i < length g) by (by eapply lookup_lt_Some).
  pose proof (assign_shrinks i n g cs Hc) as Hs.
  pose proof (assign_lookup_eq i n g Hi) as Hnew.
  assert (Hclash : ∀ TYPE j, g !! j = Some (Cell.Filled n) →
    group_of TYPE j = group_of TYPE i → False).
  { intros TYPE j Hj HT. by apply (Helim j TYPE i n cs). }
  split.
  - by rewrite assign_length.
  - intros i'. destruct (decide (i' = i)) as [->|Hi'].
    + apply (updatePossibilities_eliminated_at _ n); [by rewrite length_alter|].
      by rewrite list_lookup_alter_eq, Hc.
    + intros TYPE j d cs' Hd. apply (eliminated_at_shrinks g _ i' Hs); [|done..].
      exists d. by eapply assign_Filled_inv.
  - intros TYPE i1 i2 d H1 H2 HT.
    destruct (decide (i1 = i)) as [->|Hne1], (decide (i2 = i)) as [->|Hne2]; [done|..].
    + rewrite Hnew in H1. simplify_eq. apply assign_Filled_inv in H2; [|done].
      by destruct (Hclash TYPE i2).
    + rewrite Hnew in H2. simplify_eq. apply assign_Filled_inv in H1; [|done].
      by destruct (Hclash TYPE i1).
    + apply assign_Filled_inv in H1, H2; [|done..]. by apply (Hcons TYPE i1 i2 d).
  - intros j cs' d Hj Hd.
    destruct (shrinks_Empty _ _ _ _ Hs Hj) as (cs0 & Hcs0 & Hsub).
    by apply (Hrange j cs0), Hsub.
  - intros j d Hj. destruct (decide (j = i)) as [->|Hne].
    + rewrite Hnew in Hj. simplify_eq. by apply (Hrange i cs).
    + apply assign_Filled_inv in Hj; [|done]. by apply (Hdigits j).
Qed.

Lemma restrict_well_formed g : well_formed g → well_formed (restrict g).2.
Proof.
  intros Hwf. apply (restrict_ind (λ _ g1, well_formed g1)); [done|].
  intros _ g1 i cs number Hwf1 Hc Hn _. by eapply assign_well_formed.
Qed.

(** ** The deductions of the sweep agree with every completion *)

Lemma deduction_sound g s i cs number :
  well_formed g → legal s → extends_to g s →
  g !! i = Some (Cell.Empty cs) → number ∈ cs →
  may_assign g i (Cell.Empty cs) number → s !! i = Some number.
Proof.
  intros [Hlen Helim _ Hrange _] Hlegal Hext Hc Hn Hmay.
  destruct (extends_to_lookup g s i _ Hext Hc) as (x & Hx & Hcx). simpl in Hcx.
  destruct Hmay as [[y Hy]|[TYPE Hhidden]].
  - simpl in Hy. subst cs. apply list_elem_of_singleton in Hn, Hcx. congruence.
  - assert (Hi : i < NCOUNT * NCOUNT) by (rewrite <- Hlen; by eapply lookup_lt_Some).
    destruct (legal_group_has_digit s TYPE (group_of TYPE i) number Hlegal)
      as (k & Hk & Hsk); [by apply group_of_lt | by eapply Hrange|].
    destruct (decide (k = i)) as [->|Hki]; [done|]. exfalso.
    destruct (m_neighbors_group TYPE _ k (group_of_lt TYPE i Hi) Hk) as [Hklt HT].
    rewrite <- Hlen in Hklt. destruct (lookup_lt_is_Some_2 g k Hklt) as [ck Hck].
    destruct (extends_to_lookup g s k _ Hext Hck) as (y & Hy & Hcy). simplify_eq.
    destruct ck as [csk|dk]; simpl in Hcy.
    + by apply (Hhidden k csk).
    + subst dk. by apply (Helim k TYPE i number cs).
Qed.

Lemma assign_extends i n g s cs :
  length g = NCOUNT * NCOUNT → legal s → extends_to g s →
  g !! i = Some (Cell.Empty cs) → s !! i = Some n →
  extends_to (assign i n g) s.
Proof.
  intros Hlen Hlegal Hext Hc Hs. unfold assign.
  apply (updatePossibilities_extends _ n); [by rewrite length_alter|done| |].
  - apply Forall2_same_length_lookup. split.
    { rewrite length_alter. by eapply Forall2_length. }
    intros j c x Hj Hx. destruct (decide (i = j)) as [->|Hij].
    + rewrite list_lookup_alter_eq, Hc in Hj. by simplify_eq/=.
    + rewrite list_lookup_alter_ne in Hj by done.
      destruct (extends_to_lookup g s j _ Hext Hj) as (x' & Hx' & Hcx). congruence.
  - by rewrite list_lookup_alter_eq, Hc.
Qed.

Lemma restrict_extends g s :
  well_formed g → legal s → extends_to g s →
  well_formed (restrict g).2 ∧ extends_to (restrict g).2 s.
Proof.
  intros Hwf Hlegal Hext.
  apply (restrict_ind (λ _ g1, well_formed g1 ∧ extends_to g1 s)); [done|].
  intros _ g1 i cs number [Hwf1 Hext1] Hc Hn Hded.
  pose proof (wf_length g1 Hwf1) as Hlen.
  assert (Hi : i < NCOUNT * NCOUNT) by (rewrite <- Hlen; by eapply lookup_lt_Some).
  apply deducible_spec in Hded; [|done..].
  split; [by eapply assign_well_formed|].
  eapply assign_extends; [done..|].
  by eapply deduction_sound.
Qed.

(** ** What [solve] leaves *)

Lemma find_empty_Some g index cell :
  find_empty g = Some (index, cell) →
  ∃ cs, cell = Cell.Empty cs ∧ g !! index = Some (Cell.Empty cs).
Proof.
  intros (Hc & [cs ->]%isEmpty_true & _)%list_find_Some. by exists cs.
Qed.

(** A grid that [solve] reports as solved is well formed, and keeps the
    Filled cells of the grid [solve] was called on. *)
Lemma solve_fuel_sound fuel g g' :
  well_formed g → solve_fuel fuel g = Returned true g' →
  well_formed g' ∧ shrinks g g'.
Proof.
  revert g. induction fuel as [|fuel IH]; intros g Hwf; simpl; [done|].
  destruct (isFilled g || negb (isSolvable g)).
  { intros [= _ <-]. split; [done | apply shrinks_refl]. }
  pose proof (restrict_well_formed g Hwf) as Hwf1.
  pose proof (restrict_shrinks g) as Hs1.
  destruct (restrict g) as [[] g1]; simpl in *.
  - intros [Hwf' Hs']%IH; [|done]. split; [done | by eapply shrinks_trans].
  - unfold assumeNumber. destruct (find_empty g1) as [[index cell]|] eqn:Hfind; [|done].
    apply find_empty_Some in Hfind as (cs & -> & Hc). simpl. intros Hloop.
    pose proof (assume_loop_cases (solve_fuel fuel) index cs g1) as Hcases.
    rewrite Hloop in Hcases. destruct Hcases as (pre & p & post & -> & _ & Hp).
    assert (Hp_in : p ∈ pre ++ p :: post).
    { apply elem_of_app. right. apply list_elem_of_here. }
    apply IH in Hp as [Hwf' Hs']; [|by eapply assign_well_formed].
    split; [done|]. eapply shrinks_trans; [done|].
    eapply shrinks_trans; [by eapply assign_shrinks | done].
Qed.

Lemma well_formed_filled_correct g :
  well_formed g → isFilled g = true → isCorrect g = true.
Proof.
  intros Hwf Hf. apply isCorrect_spec; [by apply wf_length|].
  intros TYPE j k Hj Hk HT Heq. rewrite <- (wf_length g Hwf) in Hj, Hk.
  destruct (lookup_lt_is_Some_2 g j Hj) as [[?|dj] Hcj];
    [by pose proof (proj1 (isFilled_true g) Hf j _ Hcj)|].
  destruct (lookup_lt_is_Some_2 g k Hk) as [[?|dk] Hck];
    [by pose proof (proj1 (isFilled_true g) Hf k _ Hck)|].
  unfold number_at in Heq. rewrite Hcj, Hck in Heq. simplify_eq/=.
  by apply (wf_consistent g Hwf TYPE j k dk).
Qed.

(** ** [solve] finds a completion when there is one *)

Lemma assume_loop_finds slv index poss g p g1 :
  (∀ q, q ∈ poss → ∃ b g2, slv (assign index q g) = Returned b g2) →
  p ∈ poss → slv (assign index p g) = Returned true g1 →
  ∃ g', assume_loop slv index poss g = Returned true g'.
Proof.
  induction poss as [|q poss IH]; intros Hret Hp Hslv; [by apply elem_of_nil in Hp|].
  simpl. destruct (Hret q (list_elem_of_here _ _)) as ([] & g2 & Hq); rewrite Hq.
  - by exists g2.
  - apply IH; [intros; by apply Hret, list_elem_of_further| |done].
    apply elem_of_cons in Hp as [->|Hp]; [congruence | done].
Qed.

Lemma extends_to_solvable g s : extends_to g s → isSolvable g = true.
Proof.
  intros Hext. apply isSolvable_true. intros i Hc.
  destruct (extends_to_lookup g s i _ Hext Hc) as (d & _ & Hd).
  by apply elem_of_nil in Hd.
Qed.

Lemma solve_fuel_complete fuel g s :
  count_empty g < fuel → well_formed g → legal s → extends_to g s →
  ∃ g', solve_fuel fuel g = Returned true g'.
Proof.
  revert g. induction fuel as [|fuel IH]; intros g Hfuel Hwf Hlegal Hext; [lia|].
  simpl. rewrite (extends_to_solvable g s Hext). simpl. rewrite orb_false_r.
  destruct (isFilled g) eqn:Hnf; [by eauto|].
  pose proof (restrict_progress g) as Hprog.
  destruct (restrict_extends g s Hwf Hlegal Hext) as [Hwf1 Hext1].
  destruct (restrict g) as [[] g1]; simpl in *; [apply IH; [lia|done..]|]. subst g1.
  destruct (find_empty_not_filled g Hnf) as (index & cs & Hfind & Hc & _).
  unfold assumeNumber. rewrite Hfind. simpl.
  destruct (extends_to_lookup g s index _ Hext Hc) as (d & Hd & Hdcs). simpl in Hdcs.
  pose proof (λ p, count_empty_assign index p g cs Hc) as Hcount.
  destruct (IH (assign index d g)) as [g' Hg'].
  - rewrite (Hcount d) in Hfuel. lia.
  - by eapply assign_well_formed.
  - done.
  - eapply assign_extends; [by apply wf_length|done..].
  - apply (assume_loop_finds _ _ _ _ d g'); [|done..].
    intros q _. apply solve_fuel_enough. rewrite (Hcount q) in Hfuel. lia.
Qed.

(** ** The grid that [read] leaves *)

Lemma parse_Some token c :
  Cell.parse NCOUNT token = Some c →
  (token = 0 ∧ c = Cell.fresh NCOUNT) ∨ (1 ≤ token ≤ NCOUNT ∧ c = Cell.Filled token).
Proof.
  unfold Cell.parse. destruct (token =? 0) eqn:H0.
  - apply Nat.eqb_eq in H0. intros [= <-]. by left.
  - apply Nat.eqb_neq in H0. destruct (token <=? NCOUNT) eqn:Hle; [|done].
    apply Nat.leb_le in Hle. intros [= <-]. right. split; [lia | done].
Qed.

Lemma read_cells_spec stream cells :
  read_cells stream = Some cells →
  length cells = NCOUNT * NCOUNT
  ∧ ∀ i, i < NCOUNT * NCOUNT →
      ∃ token c, stream !! i = Some token ∧ cells !! i = Some c
                 ∧ Cell.parse NCOUNT token = Some c.
Proof.
  unfold read_cells. destruct (length stream <? NCOUNT * NCOUNT) eqn:Hlen; [done|].
  apply Nat.ltb_ge in Hlen. intros Hm%mapM_Some.
  assert (Hcells : length cells = NCOUNT * NCOUNT).
  { rewrite <- (Forall2_length _ _ _ Hm). by apply length_take_le. }
  split; [done|]. intros i Hi.
  destruct (lookup_lt_is_Some_2 cells i) as [c Hc]; [lia|].
  destruct (Forall2_lookup_r _ _ _ _ _ Hm Hc) as (token & Htok & Hparse).
  rewrite lookup_take_lt in Htok by done. by exists token, c.
Qed.

Lemma read_cells_extends stream cells s :
  read_cells stream = Some cells → legal s → completes stream s →
  extends_to cells s.
Proof.
  intros [Hlen Hcells]%read_cells_spec (Hs & Hrange & _) Hcompl.
  apply Forall2_same_length_lookup. split; [congruence|].
  intros i c x Hc Hx. assert (Hi : i < NCOUNT * NCOUNT).
  { rewrite <- Hlen. by eapply lookup_lt_Some. }
  destruct (Hcells i Hi) as (token & c' & Htok & Hc' & Hparse). simplify_eq.
  apply parse_Some in Hparse as [[-> ->]|[Hr ->]]; simpl.
  - apply Hrange in Hx. apply elem_of_seq. lia.
  - rewrite (Hcompl i token) in Hx by (done || lia). by simplify_eq.
Qed.

Lemma read_update_invariant cells s m :
  length cells = NCOUNT * NCOUNT → legal s → extends_to cells s →
  let g := foldl read_update cells (seq 0 m) in
  length g = NCOUNT * NCOUNT ∧ extends_to g s ∧ shrinks cells g
  ∧ ∀ i, i < m → eliminated_at g i.
Proof.
  intros Hlen Hlegal Hext. cbv zeta. induction m as [|m IH].
  { simpl. split; [done|]. split; [done|]. split; [apply shrinks_refl | lia]. }
  rewrite seq_S, foldl_app. simpl.
  destruct IH as (Hlen' & Hext' & Hs' & Helim').
  set (g := foldl read_update cells (seq 0 m)) in *. unfold read_update.
  destruct (g !! m) as [[cs|d]|] eqn:Hm; simpl.
  - split; [done|]. split; [done|]. split; [done|]. intros i Hi.
    destruct (decide (i = m)) as [->|Hne]; [|apply Helim'; lia].
    intros TYPE j d cs' Hd. congruence.
  - pose proof (updatePossibilities_shrinks m g) as Hsm.
    split; [by rewrite updatePossibilities_length|].
    split; [by eapply updatePossibilities_extends|].
    split; [by eapply shrinks_trans|]. intros i Hi.
    destruct (decide (i = m)) as [->|Hne];
      [by eapply updatePossibilities_eliminated_at|].
    intros TYPE j d' cs' Hd. apply (eliminated_at_shrinks g _ i Hsm); [|apply Helim'; lia|done].
    exists d'. by eapply updatePossibilities_Filled_inv.
  - split; [done|]. split; [done|]. split; [done|]. intros i Hi.
    destruct (decide (i = m)) as [->|Hne]; [|apply Helim'; lia].
    intros TYPE j d cs' Hd. congruence.
Qed.

(** On a puzzle with a completion [read] leaves a well formed grid that
    can still become that completion and carries the given digits. *)
Lemma read_spec stream g s :
  read stream = Some g → legal s → completes stream s →
  well_formed g ∧ extends_to g s
  ∧ ∀ i token, i < NCOUNT * NCOUNT → stream !! i = Some token → token ≠ 0 →
      g !! i = Some (Cell.Filled token).
Proof.
  unfold read. destruct (read_cells stream) as [cells|] eqn:Hread; [|done].
  simpl. intros [= <-] Hlegal Hcompl.
  pose proof (read_cells_extends stream cells s Hread Hlegal Hcompl) as Hext0.
  destruct (read_cells_spec stream cells Hread) as [Hlen0 Hcells].
  destruct (read_update_invariant cells s (NCOUNT * NCOUNT) Hlen0 Hlegal Hext0)
    as (Hlen & Hext & Hs & Helim).
  set (g := foldl read_update cells (seq 0 (NCOUNT * NCOUNT))) in *.
  split; [split|split]; try done.
  - intros i. destruct (decide (i < NCOUNT * NCOUNT)) as [Hi|Hi]; [by apply Helim|].
    intros TYPE j d cs Hd. apply lookup_lt_Some in Hd. lia.
  - intros TYPE i j d. by apply extends_to_consistent with s.
  - intros i cs d Hc Hd. destruct (shrinks_Empty _ _ _ _ Hs Hc) as (cs0 & Hc0 & Hsub).
    apply Hsub in Hd. assert (Hi : i < NCOUNT * NCOUNT).
    { rewrite <- Hlen0. by eapply lookup_lt_Some. }
    destruct (Hcells i Hi) as (token & c & _ & Hc' & Hparse). simplify_eq.
    apply parse_Some in Hparse as [[_ [= ->]]|[_ [=]]].
    apply elem_of_seq in Hd. lia.
  - intros i d Hc. destruct (extends_to_lookup g s i _ Hext Hc) as (x & Hx & <-).
    destruct Hlegal as (_ & Hrange & _). by apply (Hrange i).
  - intros i token Hi Htok Hne. apply (shrinks_Filled cells g i token Hs).
    destruct (Hcells i Hi) as (token' & c & Htok' & Hc & Hparse). simplify_eq.
    apply parse_Some in Hparse as [[-> _]|[_ ->]]; done.
Qed.

(** The digits of a well formed, filled grid form a legal grid. *)
Lemma well_formed_filled_legal g :
  well_formed g → isFilled g = true →
  ∃ s, g = Cell.Filled <$> s ∧ legal s.
Proof.
  intros [Hlen _ Hcons _ Hdigits] Hf. exists (Cell.number unfilled <$> g).
  assert (Hg : g = Cell.Filled <$> (Cell.number unfilled <$> g)).
  { apply list_eq. intros i. rewrite !list_lookup_fmap.
    destruct (g !! i) as [[cs|d]|] eqn:Hc; simpl; [|done..].
    by pose proof (proj1 (isFilled_true g) Hf i _ Hc). }
  split; [done|]. split; [by rewrite length_fmap|]. split.
  - intros i d Hd. apply (Hdigits i). rewrite Hg, list_lookup_fmap, Hd. done.
  - intros TYPE i j d Hi Hj. apply (Hcons TYPE i j d);
      rewrite Hg, list_lookup_fmap; [by rewrite Hi | by rewrite Hj].
Qed.

(** C1: on the grid that [read] leaves of a puzzle with exactly one legal
    completion, [solve] returns true, [isCorrect] returns true on the grid
    [solve] leaves, and that grid is the completion. *)
Theorem solve_unique_puzzle stream g s :
  read stream = Some g →
  legal s → completes stream s →
  (∀ s', legal s' → completes stream s' → s' = s) →
  ∃ g', solve g = Returned true g' ∧ isCorrect g' = true ∧ g' = Cell.Filled <$> s.
Proof.
  intros Hread Hlegal Hcompl Hunique.
  destruct (read_spec stream g s Hread Hlegal Hcompl) as (Hwf & Hext & Hgiven).
  destruct (solve_fuel_complete (S (count_empty g)) g s) as [g' Hsolve]; [lia|done..|].
  exists g'. split; [done|].
  destruct (solve_fuel_sound _ g g' Hwf Hsolve) as [Hwf' Hs].
  pose proof (solve_fuel_true_filled _ g g' Hsolve) as Hf.
  split; [by apply well_formed_filled_correct|].
  destruct (well_formed_filled_legal g' Hwf' Hf) as (s' & -> & Hlegal').
  f_equal. apply Hunique; [done|]. intros i token Hi Htok Hne.
  pose proof (shrinks_Filled g _ i token Hs (Hgiven i token Hi Htok Hne)) as Hc.
  rewrite list_lookup_fmap in Hc. destruct (s' !! i); by simplify_eq/=.
Qed.

(** ** The order of the candidates *)

Lemma ascending_seq j n : ascending (seq j n).
Proof.
  revert j. induction n as [|n IH]; intros j; simpl; [constructor|].
  constructor; [apply IH|]. apply Forall_forall. intros x Hx%elem_of_seq. lia.
Qed.

Lemma ascending_filter (P : nat → Prop) `{!∀ x, Decision (P x)} cs :
  ascending cs → ascending (filter P cs).
Proof.
  induction 1 as [|x cs Hcs IH Hx]; [constructor|].
  rewrite filter_cons. case_decide; [|done]. constructor; [done|].
  apply Forall_forall. intros y [_ Hy]%list_elem_of_filter.
  rewrite Forall_forall in Hx. by apply Hx.
Qed.

Lemma updatePossibilities_ascending index g :
  candidates_ascending g → candidates_ascending (updatePossibilities index g).
Proof.
  intros Hg j cs' Hj. destruct (g !! index) as [cell|] eqn:Hcell.
  - rewrite (updatePossibilities_lookup _ _ _ _ Hcell) in Hj.
    destruct (g !! j) as [[cs|d]|] eqn:Hc; case_decide; simplify_eq/=.
    + apply ascending_filter. by apply (Hg j).
    + by apply (Hg j).
  - unfold updatePossibilities in Hj. rewrite Hcell in Hj. by apply (Hg j).
Qed.

Lemma assign_ascending i number g :
  candidates_ascending g → candidates_ascending (assign i number g).
Proof.
  intros Hg. apply updatePossibilities_ascending. intros j cs Hj.
  destruct (decide (i = j)) as [->|Hij].
  - rewrite list_lookup_alter_eq in Hj. by destruct (g !! j).
  - rewrite list_lookup_alter_ne in Hj by done. by apply (Hg j).
Qed.

Lemma restrict_ascending g :
  candidates_ascending g → candidates_ascending (restrict g).2.
Proof.
  intros Hg. apply (restrict_ind (λ _ g1, candidates_ascending g1)); [done|].
  intros _ g1 i cs number Hg1 _ _ _. by apply assign_ascending.
Qed.

Lemma read_ascending stream g : read stream = Some g → candidates_ascending g.
Proof.
  unfold read. destruct (read_cells stream) as [cells|] eqn:Hread; [|done].
  simpl. intros [= <-].
  destruct (read_cells_spec stream cells Hread) as [Hlen Hcells].
  assert (Hinit : candidates_ascending cells).
  { intros i cs Hc. assert (Hi : i < NCOUNT * NCOUNT).
    { rewrite <- Hlen. by eapply lookup_lt_Some. }
    destruct (Hcells i Hi) as (token & c & _ & Hc' & Hparse). simplify_eq.
    apply parse_Some in Hparse as [[_ [= ->]]|[_ [=]]]. apply ascending_seq. }
  clear Hread Hlen Hcells. revert cells Hinit.
  generalize (seq 0 (NCOUNT * NCOUNT)). intros l.
  induction l as [|i l IH]; intros cells Hinit; simpl; [done|].
  apply IH. unfold read_update. destruct (cells !! i) as [cell|]; [|done].
  destruct (negb (Cell.isEmpty cell)); [|done]. by apply updatePossibilities_ascending.
Qed.

(** C4, amended: a round of the sweep for a cell that is Empty, on a grid
    of [NCOUNT * NCOUNT] cells, assigns to the cell the least of its
    candidates for which the cell has a single candidate or, in its row,
    its column or its box, no other Empty cell lists the candidate on the
    live grid; the elimination follows at once, and the candidates above
    that one are not examined.  When no candidate is such, and when the
    cell is not Empty, the round changes nothing.  The sweep is the
    sequence of the rounds over the cells in index order, each on the grid
    the round before left, and it returns true iff it has assigned a cell.
    The candidate lists are in ascending order on the grid that [read]
    leaves, and a sweep and an assignment keep them so and keep the number
    of cells. *)
Theorem restrict_assigns_first_single g :
  (∀ b g1 i cs number,
     length g1 = NCOUNT * NCOUNT → g1 !! i = Some (Cell.Empty cs) → ascending cs →
     number ∈ cs → may_assign g1 i (Cell.Empty cs) number →
     (∀ x, x ∈ cs → x < number → ¬ may_assign g1 i (Cell.Empty cs) x) →
     restrict_cell (b, g1) i = (true, assign i number g1))
  ∧ (∀ b g1 i cs,
       length g1 = NCOUNT * NCOUNT → g1 !! i = Some (Cell.Empty cs) →
       (∀ x, x ∈ cs → ¬ may_assign g1 i (Cell.Empty cs) x) →
       restrict_cell (b, g1) i = (b, g1))
  ∧ (∀ b g1 i, (∀ cs, g1 !! i ≠ Some (Cell.Empty cs)) → restrict_cell (b, g1) i = (b, g1))
  ∧ restrict g = foldl restrict_cell (false, g) (seq 0 (NCOUNT * NCOUNT))
  ∧ ((restrict g).1 = true ↔
     ∃ i cs d, g !! i = Some (Cell.Empty cs) ∧ (restrict g).2 !! i = Some (Cell.Filled d))
  ∧ (∀ stream, read stream = Some g → candidates_ascending g)
  ∧ (candidates_ascending g →
       candidates_ascending (restrict g).2
       ∧ ∀ i number, candidates_ascending (assign i number g))
  ∧ length (restrict g).2 = length g
  ∧ (∀ i number, length (assign i number g) = length g).
Proof.
  split; [|split; [|split; [|split; [|split; [|split; [|split; [|split]]]]]]].
  - intros b g1 i cs number Hlen Hc Hasc Hn Hm Hleast.
    assert (Hi : i < NCOUNT * NCOUNT) by (rewrite <- Hlen; by eapply lookup_lt_Some).
    destruct (list_elem_of_split cs number Hn) as (pre & post & ->).
    unfold restrict_cell. simpl. rewrite Hc. simpl.
    rewrite restrict_numbers_first; [done| |by apply deducible_spec].
    apply Forall_forall. intros x Hx. apply not_true_iff_false.
    rewrite deducible_spec by done. apply Hleast.
    + apply elem_of_app. by left.
    + apply (StronglySorted_app_1_elem_of lt pre (number :: post)); [done..|].
      apply list_elem_of_here.
  - intros b g1 i cs Hlen Hc Hnone.
    assert (Hi : i < NCOUNT * NCOUNT) by (rewrite <- Hlen; by eapply lookup_lt_Some).
    unfold restrict_cell. simpl. rewrite Hc. simpl.
    rewrite (proj2 (restrict_numbers_None g1 i (Cell.Empty cs) cs)); [done|].
    apply Forall_forall. intros x Hx. apply not_true_iff_false.
    rewrite deducible_spec by done. by apply Hnone.
  - intros b g1 i Hc. unfold restrict_cell. simpl.
    destruct (g1 !! i) as [[cs|d]|] eqn:Hi; [by destruct (Hc cs)|done..].
  - done.
  - split.
    + assert (H : shrinks g (restrict g).2 ∧ ((restrict g).1 = true →
        ∃ i cs d, g !! i = Some (Cell.Empty cs) ∧ (restrict g).2 !! i = Some (Cell.Filled d)));
        [|by destruct H].
      apply (restrict_ind (λ b g1, shrinks g g1 ∧ (b = true →
        ∃ i cs d, g !! i = Some (Cell.Empty cs) ∧ g1 !! i = Some (Cell.Filled d))));
        [by split; [apply shrinks_refl|]|].
      intros b g1 i cs number [Hs _] Hc _ _. split.
      * eapply shrinks_trans; [done | by eapply assign_shrinks].
      * intros _. destruct (shrinks_Empty g g1 i cs Hs Hc) as (cs0 & Hc0 & _).
        exists i, cs0, number. split; [done|].
        apply assign_lookup_eq. by eapply lookup_lt_Some.
    + intros (i & cs & d & Hc & Hc'). destruct (restrict g).1 eqn:Hr; [done|].
      pose proof (restrict_no_progress g Hr) as Heq. congruence.
  - intros stream. apply read_ascending.
  - intros Hg. split; [by apply restrict_ascending|].
    intros i number. by apply assign_ascending.
  - apply shrinks_length, restrict_shrinks.
  - intros i number. apply assign_length.
Qed.

(** ** Puzzles that the sweeps alone solve *)

Lemma sweeps_extends n g s :
  well_formed g → legal s → extends_to g s →
  well_formed (sweeps n g) ∧ extends_to (sweeps n g) s.
Proof.
  intros Hwf Hlegal Hext. induction n as [|n [IHwf IHext]]; [done|].
  unfold sweeps. simpl. by apply restrict_extends.
Qed.

Lemma extends_to_Filled s s' : extends_to (Cell.Filled <$> s) s' → s' = s.
Proof.
  intros Hext. apply list_eq. intros i.
  destruct (s !! i) as [d|] eqn:Hd.
  - destruct (extends_to_lookup _ s' i (Cell.Filled d) Hext) as (x & Hx & <-); [|done].
    by rewrite list_lookup_fmap, Hd.
  - apply lookup_ge_None. apply lookup_ge_None in Hd.
    rewrite <- (Forall2_length _ _ _ Hext), length_fmap. done.
Qed.

(** When some number of sweeps fills the grid that [read] leaves, the
    puzzle has no other completion than the one the sweeps reach. *)
Lemma sweeps_unique stream g n s s' :
  read stream = Some g → sweeps n g = Cell.Filled <$> s →
  legal s' → completes stream s' → s' = s.
Proof.
  intros Hread Hn Hlegal Hcompl.
  destruct (read_spec stream g s' Hread Hlegal Hcompl) as (Hwf & Hext & _).
  destruct (sweeps_extends n g s' Hwf Hlegal Hext) as [_ Hext'].
  rewrite Hn in Hext'. by apply extends_to_Filled.
Qed.

Lemma number_at_Filled s k : number_at (Cell.Filled <$> s) k = s !! k.
Proof. unfold number_at. rewrite list_lookup_fmap. by destruct (s !! k). Qed.

(** A completed grid that passes [isCorrect] with digits in range is
    legal. *)
Lemma isCorrect_legal s :
  length s = NCOUNT * NCOUNT →
  forallb (λ d, (1 <=? d) && (d <=? NCOUNT)) s = true →
  isCorrect (Cell.Filled <$> s) = true → legal s.
Proof.
  intros Hlen Hrange Hok. split; [done|]. split.
  - intros i d Hd. rewrite forallb_forall in Hrange.
    specialize (Hrange d). rewrite andb_true_iff, !Nat.leb_le in Hrange.
    by apply Hrange, list_elem_of_In, list_elem_of_lookup_2 with i.
  - intros TYPE i j d Hi Hj HT.
    rewrite isCorrect_spec in Hok by (by rewrite length_fmap).
    apply (Hok TYPE); [rewrite <- Hlen; by eapply lookup_lt_Some..|done|].
    rewrite !number_at_Filled. congruence.
Qed.

Lemma completes_check stream s :
  length s = NCOUNT * NCOUNT → forallb given_ok (zip stream s) = true →
  completes stream s.
Proof.
  intros Hlen Hall i token Hi Htok Hne. rewrite <- Hlen in Hi.
  destruct (lookup_lt_is_Some_2 s i Hi) as [d Hd].
  rewrite forallb_forall in Hall. specialize (Hall (token, d)).
  unfold given_ok in Hall. simpl in Hall.
  rewrite orb_true_iff, !Nat.eqb_eq in Hall.
  destruct Hall as [?| ->]; [|done|done].
  apply list_elem_of_In, list_elem_of_lookup_2 with i.
  by rewrite lookup_zip_with, Htok, Hd.
Qed.

(** * Further properties *)

(** ** The neighbour tables and the coordinates *)

(** X1: every row of the tables [m_neighbors] lists [NCOUNT] cells, all of
    them cells of the grid, and none of them twice. *)
Theorem m_neighbors_shape TYPE gi :
  gi < NCOUNT →
  length (m_neighbors TYPE gi) = NCOUNT
  ∧ NoDup (m_neighbors TYPE gi)
  ∧ ∀ k, k ∈ m_neighbors TYPE gi → k < NCOUNT * NCOUNT.
Proof.
  intros Hgi. split; [by apply m_neighbors_length|].
  split; [by apply m_neighbors_NoDup|].
  intros k Hk. by destruct (m_neighbors_group TYPE gi k Hgi Hk).
Qed.

(** X2: the tables agree with [row], [col] and [box]: the group [gi] of a
    kind lists exactly the cells of the grid whose row, column or box
    number is [gi], so every cell of the grid is in one group of each
    kind and in no other. *)
Theorem m_neighbors_by_coordinates TYPE gi k :
  gi < NCOUNT →
  k ∈ m_neighbors TYPE gi ↔ k < NCOUNT * NCOUNT ∧ group_of TYPE k = gi.
Proof.
  intros Hgi. split; [by apply m_neighbors_group|].
  intros [Hk <-]. by apply elem_of_own_group.
Qed.

(** X3: the box number of a cell of the grid is below [NCOUNT]; its
    quotient by [SIZE] is the band of [SIZE] rows the cell is in and its
    remainder the stack of [SIZE] columns, so two cells have the same box
    exactly when they share the band and the stack. *)
Theorem box_band_stack i j :
  i < NCOUNT * NCOUNT → j < NCOUNT * NCOUNT →
  box i < NCOUNT
  ∧ box i / SIZE = row i / SIZE
  ∧ box i mod SIZE = col i / SIZE
  ∧ (box i = box j ↔ row i / SIZE = row j / SIZE ∧ col i / SIZE = col j / SIZE).
Proof.
  intros Hi Hj. assert (Hn : 0 < SIZE) by (apply SIZE_pos; lia).
  assert (Hband : ∀ k, k < NCOUNT * NCOUNT →
    box k / SIZE = row k / SIZE ∧ box k mod SIZE = col k / SIZE).
  { intros k Hk. unfold box, row, col.
    apply div_mod_pair, div_lt_sq, Nat.mod_upper_bound. lia. }
  destruct (Hband i Hi) as [Hbi Hsi]. destruct (Hband j Hj) as [Hbj Hsj].
  split; [apply (group_of_lt BOX i Hi)|]. split; [done|]. split; [done|]. split.
  - intros Heq. rewrite <- Hbi, <- Hbj, <- Hsi, <- Hsj, Heq. done.
  - intros [Hb Hs]. unfold box. fold (row i) (row j) (col i) (col j). by rewrite Hb, Hs.
Qed.

(** ** What [read] leaves, for any input *)

Lemma read_update_candidates cells m :
  length cells = NCOUNT * NCOUNT →
  (∀ i cs, cells !! i = Some (Cell.Empty cs) → cs = seq 1 NCOUNT) →
  length (foldl read_update cells (seq 0 m)) = NCOUNT * NCOUNT
  ∧ (∀ j d, foldl read_update cells (seq 0 m) !! j = Some (Cell.Filled d) ↔
            cells !! j = Some (Cell.Filled d))
  ∧ (∀ j cs d,
       foldl read_update cells (seq 0 m) !! j = Some (Cell.Empty cs) →
       d ∈ cs ↔
       1 ≤ d ≤ NCOUNT
       ∧ ∀ i TYPE, i < m → cells !! i = Some (Cell.Filled d) →
                   group_of TYPE i ≠ group_of TYPE j).
Proof.
  intros Hlen Hfresh. induction m as [|m IH].
  { simpl. split; [done|]. split; [done|]. intros j cs d Hj.
    rewrite (Hfresh j cs Hj), elem_of_seq. split; [|lia]. intros Hd. split; [lia|lia]. }
  rewrite seq_S, foldl_app. simpl.
  destruct IH as (Hlen' & Hfilled & Hcands).
  set (g := foldl read_update cells (seq 0 m)) in *. unfold read_update.
  assert (Hkeep : (∀ d, g !! m ≠ Some (Cell.Filled d)) →
    length g = NCOUNT * NCOUNT
    ∧ (∀ j d, g !! j = Some (Cell.Filled d) ↔ cells !! j = Some (Cell.Filled d))
    ∧ (∀ j cs d, g !! j = Some (Cell.Empty cs) →
         d ∈ cs ↔
         1 ≤ d ≤ NCOUNT
         ∧ ∀ i TYPE, i < S m → cells !! i = Some (Cell.Filled d) →
                     group_of TYPE i ≠ group_of TYPE j)).
  { intros Hm. split; [done|]. split; [done|]. intros j cs d Hj.
    rewrite (Hcands j cs d Hj). split; intros [Hr Hall]; (split; [done|]).
    - intros i TYPE Hi Hc. destruct (decide (i = m)) as [->|Hne]; [|apply Hall; [lia|done]].
      apply Hfilled in Hc. by destruct (Hm d).
    - intros i TYPE Hi. apply Hall. lia. }
  destruct (g !! m) as [[cs0|d0]|] eqn:Hm; simpl; [by apply Hkeep| |by apply Hkeep].
  assert (Hmlt : m < NCOUNT * NCOUNT) by (rewrite <- Hlen'; by eapply lookup_lt_Some).
  pose proof (proj1 (Hfilled m d0) Hm) as Hcm.
  split; [by rewrite updatePossibilities_length|]. split.
  - intros j d. rewrite <- Hfilled. split; [apply updatePossibilities_Filled_inv|].
    apply shrinks_Filled, updatePossibilities_shrinks.
  - intros j cs d. rewrite (updatePossibilities_lookup_Filled _ _ _ _ Hm).
    intros Hj. assert (Hjlt : j < NCOUNT * NCOUNT).
    { rewrite <- Hlen'. destruct (g !! j) eqn:Hgj; [by eapply lookup_lt_Some|].
      by case_decide. }
    pose proof (in_groups_iff m j Hmlt) as Hgroups.
    destruct (g !! j) as [[csj|dj]|] eqn:Hgj; [|by case_decide..].
    specialize (Hcands j csj d Hgj).
    destruct (decide (in_groups m j)) as [Hin|Hout]; simplify_eq/=.
    + rewrite list_elem_of_filter, Hcands. apply Hgroups in Hin as [_ [T HT]].
      split.
      * intros [Hne [Hr Hall]]. split; [done|]. intros i TYPE Hi Hc.
        destruct (decide (i = m)) as [->|Hnm]; [congruence|]. apply Hall; [lia|done].
      * intros [Hr Hall]. split; [|split; [done|]].
        -- intros ->. apply (Hall m T); [lia|congruence|congruence].
        -- intros i TYPE Hi. apply Hall. lia.
    + rewrite Hcands. split; intros [Hr Hall]; (split; [done|]).
      * intros i TYPE Hi Hc. destruct (decide (i = m)) as [->|Hnm];
          [|apply Hall; [lia|done]].
        intros HT. apply Hout, Hgroups. split; [done|]. by exists TYPE.
      * intros i TYPE Hi. apply Hall. lia.
Qed.

Lemma read_cells_fresh stream cells i cs :
  read_cells stream = Some cells → cells !! i = Some (Cell.Empty cs) →
  cs = seq 1 NCOUNT.
Proof.
  intros [Hlen Hcells]%read_cells_spec Hc.
  assert (Hi : i < NCOUNT * NCOUNT) by (rewrite <- Hlen; by eapply lookup_lt_Some).
  destruct (Hcells i Hi) as (token & c & _ & Hc' & Hparse). simplify_eq.
  by apply parse_Some in Hparse as [[_ [= ->]]|[_ [=]]].
Qed.

Lemma read_candidates_spec stream g :
  read stream = Some g →
  length g = NCOUNT * NCOUNT
  ∧ (∀ j token, j < NCOUNT * NCOUNT → stream !! j = Some token →
       if token =? 0 then ∃ cs, g !! j = Some (Cell.Empty cs)
       else 1 ≤ token ≤ NCOUNT ∧ g !! j = Some (Cell.Filled token))
  ∧ (∀ j cs d, g !! j = Some (Cell.Empty cs) →
       d ∈ cs ↔
       1 ≤ d ≤ NCOUNT
       ∧ ∀ i TYPE, g !! i = Some (Cell.Filled d) →
                   group_of TYPE i ≠ group_of TYPE j).
Proof.
  unfold read. destruct (read_cells stream) as [cells|] eqn:Hread; [|done].
  simpl. intros [= <-].
  destruct (read_cells_spec stream cells Hread) as [Hlen0 Hcells].
  destruct (read_update_candidates cells (NCOUNT * NCOUNT) Hlen0)
    as (Hlen & Hfilled & Hcands); [intros i cs; by apply read_cells_fresh with stream|].
  set (g := foldl read_update cells (seq 0 (NCOUNT * NCOUNT))) in *.
  split; [done|]. split.
  - intros j token Hj Htok.
    destruct (Hcells j Hj) as (token' & c & Htok' & Hc & Hparse). simplify_eq.
    apply parse_Some in Hparse as [[-> ->]|[Hr ->]]; simpl.
    + rewrite <- Hlen in Hj. destruct (lookup_lt_is_Some_2 g j Hj) as [[cs|d] Hg];
        [by exists cs|]. apply Hfilled in Hg. unfold Cell.fresh in Hc. congruence.
    + destruct (token =? 0) eqn:H0; [apply Nat.eqb_eq in H0; lia|].
      split; [done|]. by apply Hfilled.
  - intros j cs d Hj. rewrite (Hcands j cs d Hj).
    split; intros [Hr Hall]; (split; [done|]).
    + intros i TYPE Hi. apply Hall; [|by apply Hfilled].
      rewrite <- Hlen. by eapply lookup_lt_Some.
    + intros i TYPE _ Hi. by apply Hall, Hfilled.
Qed.

(** X4: what [read] leaves of any input it accepts.  The grid has
    [NCOUNT * NCOUNT] cells; a cell is Filled with its token when the token
    is a digit and Empty when the token is 0; and the candidates of an
    Empty cell are exactly the digits of [1..NCOUNT] that no Filled cell
    of its row, its column or its box carries. *)
Theorem read_candidates stream g :
  read stream = Some g →
  length g = NCOUNT * NCOUNT
  ∧ (∀ j token, j < NCOUNT * NCOUNT → stream !! j = Some token →
       if token =? 0 then ∃ cs, g !! j = Some (Cell.Empty cs)
       else 1 ≤ token ≤ NCOUNT ∧ g !! j = Some (Cell.Filled token))
  ∧ (∀ j cs d, g !! j = Some (Cell.Empty cs) →
       d ∈ cs ↔
       1 ≤ d ≤ NCOUNT
       ∧ ∀ i TYPE, g !! i = Some (Cell.Filled d) →
                   group_of TYPE i ≠ group_of TYPE j).
Proof. apply read_candidates_spec. Qed.

Lemma parse_None token : Cell.parse NCOUNT token = None ↔ NCOUNT < token.
Proof.
  unfold Cell.parse. destruct (token =? 0) eqn:H0.
  - apply Nat.eqb_eq in H0. split; [done | lia].
  - apply Nat.eqb_neq in H0. destruct (token <=? NCOUNT) eqn:Hle.
    + apply Nat.leb_le in Hle. split; [done | lia].
    + apply Nat.leb_gt in Hle. done.
Qed.

(** ** Inputs whose givens do not clash *)

Lemma completes_clash_free stream s : legal s → completes stream s → clash_free stream.
Proof.
  intros (_ & _ & Hinj) Hcompl TYPE i j token Hi Hj Hti Htj Hne HT.
  apply (Hinj TYPE i j token); [by apply Hcompl..|done].
Qed.

Lemma clash_freeb_spec stream : clash_freeb stream = true → clash_free stream.
Proof.
  unfold clash_freeb. rewrite forallb_forall.
  intros Hall TYPE i j token Hi Hj Hti Htj Hne HT.
  assert (Hi' : In i (seq 0 (NCOUNT * NCOUNT))) by (apply list_elem_of_In, elem_of_seq; lia).
  assert (Hj' : In j (seq 0 (NCOUNT * NCOUNT))) by (apply list_elem_of_In, elem_of_seq; lia).
  specialize (Hall i Hi'). rewrite forallb_forall in Hall. specialize (Hall j Hj').
  rewrite Hti, Htj, !orb_true_iff in Hall.
  destruct Hall as [[[H0%Nat.eqb_eq|Hnb]|Hij%Nat.eqb_eq]|HTs]; [done| |done|].
  - by rewrite Nat.eqb_refl in Hnb.
  - rewrite forallb_forall in HTs. specialize (HTs TYPE).
    rewrite HT, Nat.eqb_refl in HTs. destruct TYPE; simpl in HTs; discriminate HTs; auto.
Qed.

(** On givens that do not clash [read] leaves a well formed grid. *)
Lemma read_well_formed stream g :
  read stream = Some g → clash_free stream → well_formed g.
Proof.
  intros Hread Hfree.
  destruct (read_candidates_spec stream g Hread) as (Hlen & Hcells & Hcands).
  assert (Hlong : NCOUNT * NCOUNT ≤ length stream).
  { unfold read, read_cells in Hread.
    destruct (length stream <? NCOUNT * NCOUNT) eqn:Hl; [done|]. by apply Nat.ltb_ge. }
  assert (Hgiven : ∀ i d, g !! i = Some (Cell.Filled d) →
    i < NCOUNT * NCOUNT ∧ stream !! i = Some d ∧ 1 ≤ d ≤ NCOUNT).
  { intros i d Hc. assert (Hi : i < NCOUNT * NCOUNT).
    { rewrite <- Hlen. by eapply lookup_lt_Some. }
    destruct (lookup_lt_is_Some_2 stream i) as [token Htok]; [lia|].
    specialize (Hcells i token Hi Htok). destruct (token =? 0).
    - destruct Hcells as [cs Hcs]. congruence.
    - destruct Hcells as [Hr Hf]. by simplify_eq. }
  split.
  - done.
  - intros i TYPE j d cs Hi Hj HT Hd.
    apply (Hcands j cs d Hj) in Hd as [_ Hall]. by apply (Hall i TYPE).
  - intros TYPE i j d Hi Hj HT.
    destruct (Hgiven i d Hi) as (Hilt & Hti & Hri).
    destruct (Hgiven j d Hj) as (Hjlt & Htj & _).
    apply (Hfree TYPE i j d); [done..|lia|done].
  - intros i cs d Hi Hd. by apply (Hcands i cs d Hi) in Hd as [Hr _].
  - intros i d Hi. by destruct (Hgiven i d Hi) as (_ & _ & Hr).
Qed.

Lemma read_given stream g i token :
  read stream = Some g → i < NCOUNT * NCOUNT → stream !! i = Some token →
  token ≠ 0 → g !! i = Some (Cell.Filled token).
Proof.
  intros Hread Hi Htok Hne.
  destruct (read_candidates_spec stream g Hread) as (_ & Hcells & _).
  specialize (Hcells i token Hi Htok). destruct (token =? 0) eqn:H0.
  - apply Nat.eqb_eq in H0. done.
  - by destruct Hcells.
Qed.

(** ** Assigned digits come from the candidates *)

Lemma cell_refines_refl c : cell_refines c c.
Proof. destruct c; simpl; [by intros x Hx | done]. Qed.

Lemma cell_refines_trans c1 c2 c3 :
  cell_refines c1 c2 → cell_refines c2 c3 → cell_refines c1 c3.
Proof.
  destruct c1, c2, c3; simpl; try done.
  - intros H1 H2 x Hx. by apply H1, H2.
  - intros H1 H2. by apply H1.
  - by intros H1 <-.
  - congruence.
Qed.

Lemma cell_refines_shrinks c c' : cell_refines c c' → cell_shrinks c c'.
Proof. by destruct c, c'. Qed.

Lemma refines_refl g : refines g g.
Proof. apply Forall_Forall2_diag, Forall_forall. intros. apply cell_refines_refl. Qed.

Lemma refines_trans g1 g2 g3 : refines g1 g2 → refines g2 g3 → refines g1 g3.
Proof.
  intros H12 H23. eapply Forall2_trans; [|done..].
  intros ???. apply cell_refines_trans.
Qed.

Lemma refines_shrinks g g' : refines g g' → shrinks g g'.
Proof. intros H. eapply Forall2_impl; [done|]. apply cell_refines_shrinks. Qed.

Lemma updatePossibilities_refines index g : refines g (updatePossibilities index g).
Proof.
  destruct (g !! index) as [cell|] eqn:Hcell.
  - apply Forall2_same_length_lookup. split; [by rewrite updatePossibilities_length|].
    intros j c c' Hc. rewrite (updatePossibilities_lookup _ _ _ _ Hcell), Hc.
    case_decide; intros [= <-]; [|apply cell_refines_refl].
    destruct c as [cs|d]; simpl; [|done].
    intros x Hx. by apply list_elem_of_filter in Hx as [_ Hx].
  - unfold updatePossibilities. rewrite Hcell. apply refines_refl.
Qed.

Lemma assign_refines i n g cs :
  g !! i = Some (Cell.Empty cs) → n ∈ cs → refines g (assign i n g).
Proof.
  intros Hcell Hn. eapply refines_trans; [|apply updatePossibilities_refines].
  apply Forall2_same_length_lookup. split; [by rewrite length_alter|].
  intros j c c' Hc. destruct (decide (i = j)) as [->|Hij].
  - rewrite list_lookup_alter_eq, Hc. intros [= <-]. by simplify_eq.
  - rewrite list_lookup_alter_ne, Hc by done. intros [= <-]. apply cell_refines_refl.
Qed.

Lemma restrict_refines g : refines g (restrict g).2.
Proof.
  apply (restrict_ind (λ _ g1, refines g g1)); [apply refines_refl|].
  intros _ g1 i cs number Hg1 Hc Hn _.
  eapply refines_trans; [done|]. by eapply assign_refines.
Qed.

Lemma solve_fuel_refines fuel g g' :
  solve_fuel fuel g = Returned true g' → refines g g'.
Proof.
  revert g. induction fuel as [|fuel IH]; intros g; simpl; [done|].
  destruct (isFilled g || negb (isSolvable g)).
  { intros [= _ <-]. apply refines_refl. }
  pose proof (restrict_refines g) as Hr1.
  destruct (restrict g) as [[] g1]; simpl in *.
  - intros Hs%IH. by eapply refines_trans.
  - unfold assumeNumber. destruct (find_empty g1) as [[index cell]|] eqn:Hfind; [|done].
    apply find_empty_Some in Hfind as (cs & -> & Hc). simpl. intros Hloop.
    pose proof (assume_loop_cases (solve_fuel fuel) index cs g1) as Hcases.
    rewrite Hloop in Hcases. destruct Hcases as (pre & p & post & -> & _ & Hp%IH).
    eapply refines_trans; [done|]. eapply refines_trans; [|done].
    eapply assign_refines; [done|]. apply elem_of_app. right. apply list_elem_of_here.
Qed.

Lemma refines_extends g g' s : refines g g' → extends_to g' s → extends_to g s.
Proof.
  intros Hr Hext. apply Forall2_same_length_lookup. split.
  { rewrite (Forall2_length _ _ _ Hr). by eapply Forall2_length. }
  intros i c x Hc Hx. destruct (Forall2_lookup_l _ _ _ _ _ Hr Hc) as (c' & Hc' & Hcc).
  destruct (extends_to_lookup g' s i c' Hext Hc') as (x' & Hx' & Hcx). simplify_eq.
  destruct c as [cs|d], c' as [cs'|d']; simpl in *; try done.
  - by apply Hcc.
  - by subst.
  - by subst.
Qed.

(** X6: a sweep assigns to a cell only a digit that the cell listed as a
    candidate when the sweep began. *)
Theorem restrict_assigns_candidate g i cs d :
  g !! i = Some (Cell.Empty cs) → (restrict g).2 !! i = Some (Cell.Filled d) →
  d ∈ cs.
Proof.
  intros Hc Hd. destruct (Forall2_lookup_l _ _ _ _ _ (restrict_refines g) Hc)
    as (c' & Hc' & Hcc). by simplify_eq.
Qed.

(** X7: when [solve] returns true on a grid, whatever the grid, every
    cell that was Filled keeps its digit and every cell that was Empty is
    Filled with one of the candidates it listed. *)
Theorem solve_fills_from_candidates g g' :
  solve g = Returned true g' →
  length g' = length g
  ∧ (∀ i d, g !! i = Some (Cell.Filled d) → g' !! i = Some (Cell.Filled d))
  ∧ (∀ i cs, g !! i = Some (Cell.Empty cs) →
       ∃ d, d ∈ cs ∧ g' !! i = Some (Cell.Filled d)).
Proof.
  intros Hsolve. pose proof (solve_fuel_refines _ g g' Hsolve) as Hr.
  pose proof (solve_fuel_true_filled _ g g' Hsolve) as Hf.
  split; [symmetry; by eapply Forall2_length|]. split.
  - intros i d. apply shrinks_Filled. by apply refines_shrinks.
  - intros i cs Hc. destruct (Forall2_lookup_l _ _ _ _ _ Hr Hc) as ([cs'|d] & Hc' & Hcc).
    + by pose proof (proj1 (isFilled_true g') Hf i _ Hc').
    + by exists d.
Qed.

(** ** What a sweep does to the completions *)

(** X8: on a well formed grid a sweep neither loses nor adds a
    completion: a legal grid can be reached from the grid the sweep
    leaves exactly when it could be reached from the grid the sweep was
    given, so no deduction of a sweep, made on cells that earlier
    deductions of the same sweep have changed, is ever wrong. *)
Theorem restrict_keeps_completions g s :
  well_formed g → legal s →
  extends_to g s ↔ extends_to (restrict g).2 s.
Proof.
  intros Hwf Hlegal. split.
  - intros Hext. by destruct (restrict_extends g s Hwf Hlegal Hext).
  - apply refines_extends, restrict_refines.
Qed.

(** X9: when some number of sweeps alone fills the grid that [read] left,
    the digits the sweeps reached are the only legal completion the
    puzzle can have. *)
Theorem sweeps_alone_leave_one_completion stream g n s s' :
  read stream = Some g → sweeps n g = Cell.Filled <$> s →
  legal s' → completes stream s' → s' = s.
Proof. apply sweeps_unique. Qed.

(** ** What [solve] answers on the grid that [read] leaves *)

Lemma solve_sound_read stream g g' :
  read stream = Some g → clash_free stream → solve g = Returned true g' →
  ∃ s, g' = Cell.Filled <$> s ∧ legal s ∧ completes stream s ∧ isCorrect g' = true.
Proof.
  intros Hread Hfree Hsolve.
  pose proof (read_well_formed stream g Hread Hfree) as Hwf.
  destruct (solve_fuel_sound _ g g' Hwf Hsolve) as [Hwf' Hs].
  pose proof (solve_fuel_true_filled _ g g' Hsolve) as Hf.
  destruct (well_formed_filled_legal g' Hwf' Hf) as (s & Hg' & Hlegal).
  exists s. split; [done|]. split; [done|]. split.
  - intros i token Hi Htok Hne.
    pose proof (shrinks_Filled g g' i token Hs (read_given stream g i token Hread Hi Htok Hne)) as Hc.
    rewrite Hg', list_lookup_fmap in Hc. destruct (s !! i); by simplify_eq/=.
  - by apply well_formed_filled_correct.
Qed.

Lemma solve_complete_read stream g s :
  read stream = Some g → legal s → completes stream s →
  ∃ g', solve g = Returned true g'.
Proof.
  intros Hread Hlegal Hcompl.
  destruct (read_spec stream g s Hread Hlegal Hcompl) as (Hwf & Hext & _).
  apply (solve_fuel_complete _ g s); [lia|done..].
Qed.

(** X10: on the grid that [read] leaves of givens that do not clash,
    [solve] never reports a wrong solution: when it returns true, the grid
    it leaves is filled with a legal grid that carries every given digit,
    and [isCorrect] returns true on it. *)
Theorem solve_result_is_completion stream g g' :
  read stream = Some g → clash_free stream → solve g = Returned true g' →
  ∃ s, g' = Cell.Filled <$> s ∧ legal s ∧ completes stream s ∧ isCorrect g' = true.
Proof. apply solve_sound_read. Qed.

(** X11: on the grid that [read] leaves of a puzzle with at least one
    legal completion, one or many, [solve] returns true and leaves one of
    the legal completions of the puzzle. *)
Theorem solve_finds_a_completion stream g s :
  read stream = Some g → legal s → completes stream s →
  ∃ g' s', solve g = Returned true g'
    ∧ g' = Cell.Filled <$> s' ∧ legal s' ∧ completes stream s'
    ∧ isCorrect g' = true.
Proof.
  intros Hread Hlegal Hcompl.
  destruct (solve_complete_read stream g s Hread Hlegal Hcompl) as [g' Hsolve].
  destruct (solve_sound_read stream g g' Hread) as (s' & H); [|done|].
  - by apply completes_clash_free with s.
  - by exists g', s'.
Qed.

(** X12: on the grid that [read] leaves of givens that do not clash and
    have no legal completion, [solve] returns false. *)
Theorem solve_refuses_unsolvable stream g :
  read stream = Some g → clash_free stream →
  (∀ s, legal s → completes stream s → False) →
  ∃ g', solve g = Returned false g'.
Proof.
  intros Hread Hfree Hnone. destruct (solve_returns g) as ([] & g' & Hsolve).
  - destruct (solve_sound_read stream g g' Hread Hfree Hsolve) as (s & _ & Hl & Hc & _).
    by destruct (Hnone s).
  - by exists g'.
Qed.

Lemma isFilled_isSolvable g : isFilled g = true → isSolvable g = true.
Proof.
  intros Hf. apply isSolvable_true. intros i Hc.
  by pose proof (proj1 (isFilled_true g) Hf i _ Hc).
Qed.

Lemma sweeps_restrict n g : sweeps n (restrict g).2 = sweeps (S n) g.
Proof. unfold sweeps. by rewrite Nat.iter_succ_r. Qed.

Lemma solve_fuel_false fuel g g' :
  solve_fuel fuel g = Returned false g' →
  isFilled g' = false ∧ ∃ n, g' = sweeps n g.
Proof.
  revert g. induction fuel as [|fuel IH]; intros g; simpl; [done|].
  destruct (isFilled g) eqn:Hf; simpl.
  { rewrite (isFilled_isSolvable g Hf). done. }
  destruct (isSolvable g) eqn:Hs; simpl.
  2:{ intros [= <-]. split; [done|]. by exists 0. }
  pose proof (restrict_progress g) as Hprog.
  destruct (restrict g) as [[] g1] eqn:Hr; simpl in *.
  - intros [Hf' [n ->]]%IH. split; [done|]. exists (S n).
    rewrite <- sweeps_restrict. by rewrite Hr.
  - subst g1. unfold assumeNumber.
    destruct (find_empty g) as [[index cell]|]; [|done]. intros Hloop.
    pose proof (assume_loop_cases (solve_fuel fuel) index (Cell.possibilities cell) g)
      as Hcases.
    rewrite Hloop in Hcases. destruct Hcases as [-> _]. split; [done|]. by exists 0.
Qed.

(** X13: when [solve] returns false, the grid it leaves is not filled and
    is the grid that some number of sweeps makes of the grid [solve] was
    called on: every assumption of the search has been undone, and only
    the deductions of the sweeps that came before the first assumption
    remain. *)
Theorem solve_failure_leaves_sweeps g g' :
  solve g = Returned false g' →
  isFilled g' = false ∧ ∃ n, g' = sweeps n g.
Proof. apply solve_fuel_false. Qed.

(** ** Inputs without an Empty cell *)

Lemma read_is_Some stream :
  NCOUNT * NCOUNT ≤ length stream →
  (∀ i token, i < NCOUNT * NCOUNT → stream !! i = Some token → token ≤ NCOUNT) →
  ∃ g, read stream = Some g.
Proof.
  intros Hlen Hrange. unfold read, read_cells.
  rewrite (proj2 (Nat.ltb_ge _ _) Hlen).
  destruct (mapM (Cell.parse NCOUNT) (take (NCOUNT * NCOUNT) stream)) as [cells|] eqn:Hm;
    [by eexists|].
  apply mapM_None, Exists_exists in Hm as (token & Hin & Hnone).
  apply list_elem_of_lookup in Hin as [i Hi].
  assert (Hlt : i < NCOUNT * NCOUNT).
  { apply lookup_lt_Some in Hi. rewrite length_take in Hi. lia. }
  rewrite lookup_take_lt in Hi by done. apply parse_None in Hnone.
  specialize (Hrange i token Hlt Hi). lia.
Qed.

(** X14: an input of [NCOUNT * NCOUNT] digits, with no Empty cell, is
    read as it stands, and [solve] returns true on it without looking at
    the digits, clash or no clash; only [isCorrect] tells whether the
    digits form a legal grid. *)
Theorem solve_accepts_any_filled_input stream :
  length stream = NCOUNT * NCOUNT →
  (∀ i token, stream !! i = Some token → 1 ≤ token ≤ NCOUNT) →
  read stream = Some (Cell.Filled <$> stream)
  ∧ solve (Cell.Filled <$> stream) = Returned true (Cell.Filled <$> stream)
  ∧ (isCorrect (Cell.Filled <$> stream) = true ↔ legal stream).
Proof.
  intros Hlen Hrange.
  assert (Hfilled : isFilled (Cell.Filled <$> stream) = true).
  { apply isFilled_true. intros i c. rewrite list_lookup_fmap.
    destruct (stream !! i); by intros [= <-]. }
  split; [|split].
  - destruct (read_is_Some stream) as [g Hread]; [lia| |].
    { intros i token _ Htok. apply Hrange in Htok. lia. }
    rewrite Hread. f_equal.
    destruct (read_candidates_spec stream g Hread) as (Hg & Hcells & _).
    apply list_eq. intros i. rewrite list_lookup_fmap.
    destruct (stream !! i) as [token|] eqn:Htok; simpl.
    + assert (Hi : i < NCOUNT * NCOUNT) by (rewrite <- Hlen; by eapply lookup_lt_Some).
      specialize (Hcells i token Hi Htok). apply Hrange in Htok.
      destruct (token =? 0) eqn:H0; [apply Nat.eqb_eq in H0; lia|]. by destruct Hcells.
    + apply lookup_ge_None. apply lookup_ge_None in Htok. lia.
  - rewrite solve_unfold, Hfilled. simpl. by rewrite (isFilled_isSolvable _ Hfilled).
  - split.
    + apply isCorrect_legal; [done|]. apply forallb_forall.
      intros d Hd%list_elem_of_In%list_elem_of_lookup. destruct Hd as [i Hi].
      apply Hrange in Hi. rewrite andb_true_iff, !Nat.leb_le. lia.
    + intros (_ & _ & Hinj). apply isCorrect_spec; [by rewrite length_fmap|].
      intros TYPE j k Hj Hk HT. rewrite !number_at_Filled.
      rewrite <- Hlen in Hj. destruct (lookup_lt_is_Some_2 stream j Hj) as [d Hd].
      rewrite Hd. intros Hd'. by apply (Hinj TYPE j k d).
Qed.

(** ** Eliminations in any order *)

Lemma disable_comm a b c :
  Cell.disable a (Cell.disable b c) = Cell.disable b (Cell.disable a c).
Proof.
  destruct c as [cs|d]; simpl; [|done]. f_equal.
  rewrite !list_filter_filter. apply list_filter_iff. intros x. tauto.
Qed.

(** X15: the eliminations that follow two Filled cells can be made in
    either order with the same grid as the result, and an elimination made
    a second time changes nothing. *)
Theorem updatePossibilities_any_order i j di dj g :
  g !! i = Some (Cell.Filled di) → g !! j = Some (Cell.Filled dj) →
  updatePossibilities i (updatePossibilities j g)
  = updatePossibilities j (updatePossibilities i g)
  ∧ updatePossibilities i (updatePossibilities i g) = updatePossibilities i g.
Proof.
  intros Hi Hj.
  pose proof (shrinks_Filled _ _ _ _ (updatePossibilities_shrinks j g) Hi) as Hi'.
  pose proof (shrinks_Filled _ _ _ _ (updatePossibilities_shrinks i g) Hj) as Hj'.
  pose proof (shrinks_Filled _ _ _ _ (updatePossibilities_shrinks i g) Hi) as Hi''.
  split; apply list_eq; intros k.
  - rewrite (updatePossibilities_lookup_Filled _ _ _ _ Hi'),
      (updatePossibilities_lookup_Filled _ _ _ _ Hj'),
      (updatePossibilities_lookup_Filled _ _ _ _ Hi),
      (updatePossibilities_lookup_Filled _ _ _ _ Hj).
    destruct (g !! k) as [c|]; repeat case_decide; simpl; try done.
    by rewrite disable_comm.
  - rewrite (updatePossibilities_lookup_Filled _ _ _ _ Hi''),
      (updatePossibilities_lookup_Filled _ _ _ _ Hi).
    destruct (g !! k) as [c|]; repeat case_decide; simpl; try done.
    by rewrite disable_idemp.
Qed.

(** ** The validation looks at equality only *)

(** X16: [isCorrect] compares the digits of a filled grid with each other
    and never with the range [1..NCOUNT]: renaming the digits one to one,
    even to numbers outside of the range, does not change its answer. *)
Theorem isCorrect_ignores_digit_names s (f : nat → nat) :
  length s = NCOUNT * NCOUNT → (∀ x y, f x = f y → x = y) →
  isCorrect (Cell.Filled <$> (f <$> s)) = isCorrect (Cell.Filled <$> s).
Proof.
  intros Hlen Hf. apply eq_true_iff_eq.
  rewrite !isCorrect_spec by (by rewrite ?length_fmap).
  split; intros Hok TYPE j k Hj Hk HT; specialize (Hok TYPE j k Hj Hk HT);
    rewrite !number_at_Filled in *; rewrite !list_lookup_fmap in *.
  - intros Heq. apply Hok. by rewrite Heq.
  - intros Heq. apply Hok.
    destruct (s !! j), (s !! k); simplify_eq/=; [|done]. f_equal. by apply Hf.
Qed.

(** ** The grid stays free of clashes *)

Lemma sweeps_well_formed n g : well_formed g → well_formed (sweeps n g).
Proof.
  intros Hwf. induction n as [|n IH]; [done|].
  unfold sweeps. simpl. by apply restrict_well_formed.
Qed.

(** X17: from givens that do not clash, [read], any number of sweeps
    after it, and the assignment to an Empty cell of one of its candidates
    with the elimination that follows, all leave a grid of
    [NCOUNT * NCOUNT] cells in which no two Filled cells of a row, a column
    or a box carry the same digit, no Empty cell lists the digit of a
    Filled cell of its row, column or box, and every digit and candidate is
    in [1..NCOUNT]. *)
Theorem propagation_keeps_well_formed stream g n :
  read stream = Some g → clash_free stream →
  well_formed (sweeps n g)
  ∧ ∀ i cs number,
      sweeps n g !! i = Some (Cell.Empty cs) → number ∈ cs →
      well_formed (assign i number (sweeps n g)).
Proof.
  intros Hread Hfree.
  pose proof (sweeps_well_formed n g (read_well_formed stream g Hread Hfree)) as Hwf.
  split; [done|]. intros i cs number Hc Hn. by eapply assign_well_formed.
Qed.

End Properties.

(** ** [number()] and the Empty cells *)

Lemma updatePossibilities_Filled_any SIZE u1 u2 index d (g : grid) :
  g !! index = Some (Cell.Filled d) →
  updatePossibilities SIZE u1 index g = updatePossibilities SIZE u2 index g.
Proof. intros Hc. unfold updatePossibilities. by rewrite Hc. Qed.

Lemma assign_any SIZE u1 u2 i n (g : grid) :
  assign SIZE u1 i n g = assign SIZE u2 i n g.
Proof.
  unfold assign. destruct (g !! i) as [c|] eqn:Hc.
  - apply (updatePossibilities_Filled_any _ _ _ _ n).
    by rewrite list_lookup_alter_eq, Hc.
  - unfold updatePossibilities. by rewrite list_lookup_alter_eq, Hc.
Qed.

Lemma restrict_cell_any SIZE u1 u2 st i :
  restrict_cell SIZE u1 st i = restrict_cell SIZE u2 st i.
Proof.
  unfold restrict_cell. destruct (st.2 !! i) as [cell|]; [|done].
  destruct (negb (Cell.isEmpty cell)); [done|].
  assert (H : ∀ numbers, restrict_numbers SIZE u1 st.2 i cell numbers
                         = restrict_numbers SIZE u2 st.2 i cell numbers).
  { induction numbers as [|x numbers IH]; simpl; [done|].
    by rewrite IH, (assign_any SIZE u1 u2). }
  by rewrite H.
Qed.

Lemma restrict_any SIZE u1 u2 (g : grid) : restrict SIZE u1 g = restrict SIZE u2 g.
Proof.
  unfold restrict. generalize (false, g). generalize (seq 0 (NCOUNT SIZE * NCOUNT SIZE)).
  intros l. induction l as [|i l IH]; intros st; simpl; [done|].
  by rewrite IH, (restrict_cell_any SIZE u1 u2).
Qed.

Lemma assumeNumber_any SIZE u1 u2 slv1 slv2 (g : grid) :
  (∀ g1, slv1 g1 = slv2 g1) →
  assumeNumber SIZE u1 slv1 g = assumeNumber SIZE u2 slv2 g.
Proof.
  intros Hslv. unfold assumeNumber. destruct (find_empty g) as [[index cell]|]; [|done].
  generalize (Cell.possibilities cell). intros poss.
  induction poss as [|p poss IH]; simpl; [done|].
  by rewrite IH, (assign_any SIZE u1 u2), Hslv.
Qed.

Lemma solve_fuel_any SIZE u1 u2 fuel (g : grid) :
  solve_fuel SIZE u1 fuel g = solve_fuel SIZE u2 fuel g.
Proof.
  revert g. induction fuel as [|fuel IH]; intros g; simpl; [done|].
  destruct (isFilled g || negb (isSolvable g)); [done|].
  rewrite (restrict_any SIZE u1 u2). destruct (restrict SIZE u2 g) as [[] g1]; simpl.
  - apply IH.
  - by apply assumeNumber_any.
Qed.

Lemma read_any SIZE u1 u2 stream : read SIZE u1 stream = read SIZE u2 stream.
Proof.
  unfold read. destruct (read_cells SIZE stream) as [cells|]; [|done]. simpl. f_equal.
  generalize (seq 0 (NCOUNT SIZE * NCOUNT SIZE)). intros l. revert cells.
  induction l as [|i l IH]; intros cells; simpl; [done|].
  rewrite IH. f_equal. unfold read_update.
  destruct (cells !! i) as [[cs|d]|] eqn:Hc; simpl; [done| |done].
  by apply updatePossibilities_Filled_any with d.
Qed.

(** X18: [read], [restrict], [assumeNumber] and [solve] ask [number()]
    of Filled cells only: whatever [number()] reports on an Empty cell,
    they return the same flag and leave the same grid. *)
Theorem number_asked_of_filled_cells_only SIZE (u1 u2 : list nat → nat) :
  (∀ stream, read SIZE u1 stream = read SIZE u2 stream)
  ∧ (∀ g, restrict SIZE u1 g = restrict SIZE u2 g)
  ∧ (∀ slv g, assumeNumber SIZE u1 slv g = assumeNumber SIZE u2 slv g)
  ∧ (∀ g, solve SIZE u1 g = solve SIZE u2 g).
Proof.
  split; [apply read_any|]. split; [apply restrict_any|].
  split; [intros slv g; by apply assumeNumber_any|].
  intros g. apply solve_fuel_any.
Qed.


(** ** Nine by nine grids *)

Lemma easy_read : read 3 reports_zero easy = Some easy_grid.
Proof. vm_compute. reflexivity. Qed.

Lemma easy_solution_legal : legal 3 easy_solution.
Proof. apply (isCorrect_legal 3 reports_zero); vm_compute; reflexivity. Qed.

Lemma easy_solution_completes : completes 3 easy easy_solution.
Proof. apply completes_check; vm_compute; reflexivity. Qed.

Lemma easy_solution_unique s' :
  legal 3 s' → completes 3 easy s' → s' = easy_solution.
Proof.
  apply (sweeps_unique 3 reports_zero easy easy_grid 3); [apply easy_read|].
  vm_compute. reflexivity.
Qed.

(** C1 on the puzzle [easy]. *)
Lemma solve_unique_puzzle_witness :
  read 3 reports_zero easy = Some easy_grid
  ∧ legal 3 easy_solution
  ∧ completes 3 easy easy_solution
  ∧ ∃ g', solve 3 reports_zero easy_grid = Returned true g'
          ∧ isCorrect 3 reports_zero g' = true
          ∧ g' = Cell.Filled <$> easy_solution.
Proof.
  split; [vm_compute; reflexivity|].
  split; [apply easy_solution_legal|].
  split; [apply easy_solution_completes|].
  apply (solve_unique_puzzle 3 reports_zero easy easy_grid easy_solution).
  - vm_compute; reflexivity.
  - apply easy_solution_legal.
  - apply easy_solution_completes.
  - apply easy_solution_unique.
Defined.

(** C3 on the first cell of [easy_cells], which holds the given 5, before
    any elimination: the third cell, in its row and its box, and the cell
    72, in its column, lose the candidate 5, and the cell 40, which shares
    no group with it, keeps its nine candidates. *)
Lemma updatePossibilities_eliminates_peers_witness :
  length easy_cells = NCOUNT 3 * NCOUNT 3
  ∧ easy_cells !! 0 = Some (Cell.Filled 5)
  ∧ updatePossibilities 3 reports_zero 0 easy_cells = eliminate_peers 3 0 5 easy_cells
  ∧ easy_cells !! 2 = Some (Cell.Empty [1; 2; 3; 4; 5; 6; 7; 8; 9])
  ∧ updatePossibilities 3 reports_zero 0 easy_cells !! 2
    = Some (Cell.Empty [1; 2; 3; 4; 6; 7; 8; 9])
  ∧ updatePossibilities 3 reports_zero 0 easy_cells !! 72
    = Some (Cell.Empty [1; 2; 3; 4; 6; 7; 8; 9])
  ∧ updatePossibilities 3 reports_zero 0 easy_cells !! 40
    = Some (Cell.Empty [1; 2; 3; 4; 5; 6; 7; 8; 9]).
Proof.
  split; [reflexivity|]. split; [reflexivity|].
  split; [|repeat split; vm_compute; reflexivity].
  apply (updatePossibilities_eliminates_peers 3 reports_zero 0 5 easy_cells);
    reflexivity.
Defined.

(** C4 as the spec states it fails on [two_singles_grid]: the sweep comes
    to the first cell on the grid as [read] left it, the cell lists 1, 2
    and 9, no other Empty cell of its column lists 2, and yet the sweep
    does not assign 2 to the cell: it assigns 1, the first candidate that
    passes the test, and leaves the loop over the candidates. *)
Lemma restrict_passes_over_second_single :
  read 3 reports_zero two_singles = Some two_singles_grid
  ∧ two_singles_grid !! 0 = Some (Cell.Empty [1; 2; 9])
  ∧ hidden_single_in 3 COL two_singles_grid 0 2
  ∧ (restrict_cell 3 reports_zero (false, two_singles_grid) 0).2 !! 0
    = Some (Cell.Filled 1)
  ∧ (restrict 3 reports_zero two_singles_grid).2 !! 0 = Some (Cell.Filled 1).
Proof.
  split; [vm_compute; reflexivity|]. split; [reflexivity|].
  split; [|split; vm_compute; reflexivity].
  apply (fn_check_spec 3 COL two_singles_grid 2 0); [reflexivity|vm_compute; lia|].
  vm_compute. reflexivity.
Qed.

(** C6 as the spec states it fails on the grid of one cell that [read]
    leaves of the input 0: the cell is Empty, and [isCorrect] returns true
    whatever [number()] reports on it, since no group holds a second
    cell. *)
Lemma isCorrect_accepts_unfilled_cell :
  ∃ g : list Cell.t,
    (∀ unfilled : list nat → nat,
       read 1 unfilled [0] = Some g ∧ isCorrect 1 unfilled g = true)
    ∧ g !! 0 = Some (Cell.Empty [1])
    ∧ ¬ groups_filled_distinct 1 g.
Proof.
  exists [Cell.Empty [1]]. split; [|split; [reflexivity|]].
  - intros unfilled. split; [reflexivity|].
    apply isCorrect_spec; [reflexivity|].
    intros TYPE j k Hj Hk _ _. change (NCOUNT 1 * NCOUNT 1) with 1 in Hj, Hk. lia.
  - intros [Hall _]. destruct (Hall 0) as [d Hd]; [vm_compute; lia|]. discriminate Hd.
Qed.

(** C6, amended, on the completed grid [easy_solution]. *)
Lemma isCorrect_distinct_numbers_witness :
  length (Cell.Filled <$> easy_solution) = 3 * 3 * (3 * 3)
  ∧ (isCorrect 3 reports_zero (Cell.Filled <$> easy_solution) = true ↔
     groups_filled_distinct 3 (Cell.Filled <$> easy_solution)).
Proof.
  split; [reflexivity|].
  apply (isCorrect_distinct_numbers 3 reports_zero (Cell.Filled <$> easy_solution));
    vm_compute; reflexivity.
Defined.

(** C7 on [hard_grid], where the sweep finds nothing to assign. *)
Lemma restrict_fixed_point_witness :
  (restrict 3 reports_zero hard_grid).1 = false
  ∧ (restrict 3 reports_zero hard_grid).2 = hard_grid
  ∧ restrict 3 reports_zero (restrict 3 reports_zero hard_grid).2
    = (false, (restrict 3 reports_zero hard_grid).2).
Proof.
  split; [vm_compute; reflexivity|].
  apply (restrict_fixed_point 3 reports_zero hard_grid). vm_compute; reflexivity.
Defined.

(** C8 on a sweep of [easy_grid] followed by an elimination. *)
Lemma propagation_only_shrinks_witness :
  let g' := updatePossibilities 3 reports_zero 0 (restrict 3 reports_zero easy_grid).2 in
  rtc (propagation 3 reports_zero) easy_grid g'
  ∧ length g' = length easy_grid
  ∧ (∀ i cs', g' !! i = Some (Cell.Empty cs') →
       ∃ cs, easy_grid !! i = Some (Cell.Empty cs) ∧ ∀ d, d ∈ cs' → d ∈ cs)
  ∧ (∀ i d, easy_grid !! i = Some (Cell.Filled d) → g' !! i = Some (Cell.Filled d)).
Proof.
  assert (H : rtc (propagation 3 reports_zero) easy_grid
    (updatePossibilities 3 reports_zero 0 (restrict 3 reports_zero easy_grid).2)).
  { eapply rtc_l; [apply propagation_sweep|].
    apply rtc_once, propagation_assignment. }
  split; [exact H|].
  exact (propagation_only_shrinks 3 reports_zero _ _ H).
Defined.

(** C10 on [hard_grid]. *)
Lemma assumeNumber_finds_empty_witness :
  isFilled hard_grid = false
  ∧ (restrict 3 reports_zero hard_grid).1 = false
  ∧ ∃ index cs,
      find_empty (restrict 3 reports_zero hard_grid).2 = Some (index, Cell.Empty cs)
      ∧ index < length (restrict 3 reports_zero hard_grid).2
      ∧ (restrict 3 reports_zero hard_grid).2 !! index = Some (Cell.Empty cs).
Proof.
  split; [reflexivity|]. split; [vm_compute; reflexivity|].
  apply (assumeNumber_finds_empty 3 reports_zero hard_grid);
    [reflexivity | vm_compute; reflexivity].
Defined.

(** C5 on [hard_grid], whose first Empty cell is the second cell. *)
Lemma assumeNumber_restores_witness :
  find_empty hard_grid = Some (1, Cell.Empty [1; 2; 4; 6])
  ∧ ∃ b g', assumeNumber 3 reports_zero (solve 3 reports_zero) hard_grid = Returned b g'
    ∧ (b = false →
         g' = hard_grid
         ∧ ∀ p, p ∈ [1; 2; 4; 6] →
                ∃ g1, solve 3 reports_zero (assign 3 reports_zero 1 p hard_grid)
                      = Returned false g1)
    ∧ (b = true →
         ∃ pre p post, [1; 2; 4; 6] = pre ++ p :: post
           ∧ (∀ q, q ∈ pre →
                ∃ g1, solve 3 reports_zero (assign 3 reports_zero 1 q hard_grid)
                      = Returned false g1)
           ∧ solve 3 reports_zero (assign 3 reports_zero 1 p hard_grid)
             = Returned true g').
Proof.
  split; [vm_compute; reflexivity|].
  apply (assumeNumber_restores 3 reports_zero hard_grid 1 (Cell.Empty [1; 2; 4; 6])).
  vm_compute; reflexivity.
Defined.

(** ** The embedding on examples *)

Example neighbors_row_0 : m_neighbors 3 ROW 0 = [0; 1; 2; 3; 4; 5; 6; 7; 8].
Proof. reflexivity. Qed.

Example neighbors_col_2 : m_neighbors 3 COL 2 = [2; 11; 20; 29; 38; 47; 56; 65; 74].
Proof. reflexivity. Qed.

Example neighbors_box_0 : m_neighbors 3 BOX 0 = [0; 1; 2; 9; 10; 11; 18; 19; 20].
Proof. reflexivity. Qed.

Example neighbors_box_4 : m_neighbors 3 BOX 4 = [30; 31; 32; 39; 40; 41; 48; 49; 50].
Proof. reflexivity. Qed.

Example easy_solved :
  solve 3 reports_zero easy_grid = Returned true (Cell.Filled <$> easy_solution).
Proof. vm_compute. reflexivity. Qed.

Example completed_grid_solved :
  solve 3 reports_zero (Cell.Filled <$> easy_solution)
  = Returned true (Cell.Filled <$> easy_solution)
  ∧ isCorrect 3 reports_zero (Cell.Filled <$> easy_solution) = true.
Proof. split; vm_compute; reflexivity. Qed.

Example two_singles_unsolvable :
  ∃ g', solve 3 reports_zero two_singles_grid = Returned false g'.
Proof. eexists. vm_compute. reflexivity. Qed.

Example one_blank_accepted :
  read 3 reports_zero (<[0 := 0]> easy_solution)
  = Some (<[0 := Cell.Empty [5]]> (Cell.Filled <$> easy_solution))
  ∧ isCorrect 3 reports_zero (<[0 := Cell.Empty [5]]> (Cell.Filled <$> easy_solution))
    = true.
Proof. split; vm_compute; reflexivity. Qed.

Example twice_in_a_row_refused :
  isCorrect 3 reports_zero (<[1 := Cell.Filled 5]> (Cell.Filled <$> easy_solution)) = false.
Proof. vm_compute. reflexivity. Qed.

(** ** The further properties on nine by nine grids *)

Lemma easy_clash_free : clash_free 3 easy.
Proof.
  apply (completes_clash_free 3 easy easy_solution);
    [apply easy_solution_legal | apply easy_solution_completes].
Qed.

Lemma two_singles_read : read 3 reports_zero two_singles = Some two_singles_grid.
Proof. vm_compute. reflexivity. Qed.

Lemma two_singles_clash_free : clash_free 3 two_singles.
Proof. apply clash_freeb_spec. vm_compute. reflexivity. Qed.

Lemma two_singles_no_completion s : legal 3 s → completes 3 two_singles s → False.
Proof.
  intros Hlegal Hcompl.
  destruct (solve_complete_read 3 reports_zero two_singles two_singles_grid s
              two_singles_read Hlegal Hcompl) as [g' Hg'].
  vm_compute in Hg'. discriminate Hg'.
Qed.

(** X1 on the middle box. *)
Lemma m_neighbors_shape_witness :
  4 < NCOUNT 3
  ∧ length (m_neighbors 3 BOX 4) = NCOUNT 3
  ∧ NoDup (m_neighbors 3 BOX 4)
  ∧ ∀ k, k ∈ m_neighbors 3 BOX 4 → k < NCOUNT 3 * NCOUNT 3.
Proof.
  assert (H : 4 < NCOUNT 3) by (vm_compute; lia).
  split; [exact H|]. exact (m_neighbors_shape 3 BOX 4 H).
Defined.

(** X2 on the cell 40 and the middle box. *)
Lemma m_neighbors_by_coordinates_witness :
  4 < NCOUNT 3
  ∧ (40 ∈ m_neighbors 3 BOX 4 ↔ 40 < NCOUNT 3 * NCOUNT 3 ∧ group_of 3 BOX 40 = 4).
Proof.
  assert (H : 4 < NCOUNT 3) by (vm_compute; lia).
  split; [exact H|]. exact (m_neighbors_by_coordinates 3 BOX 4 40 H).
Defined.

(** X3 on the cells 30 and 50 of the middle box. *)
Lemma box_band_stack_witness :
  30 < NCOUNT 3 * NCOUNT 3 ∧ 50 < NCOUNT 3 * NCOUNT 3
  ∧ box 3 30 < NCOUNT 3
  ∧ box 3 30 / 3 = row 3 30 / 3
  ∧ box 3 30 mod 3 = col 3 30 / 3
  ∧ (box 3 30 = box 3 50 ↔
     row 3 30 / 3 = row 3 50 / 3 ∧ col 3 30 / 3 = col 3 50 / 3).
Proof.
  assert (H30 : 30 < NCOUNT 3 * NCOUNT 3) by (vm_compute; lia).
  assert (H50 : 50 < NCOUNT 3 * NCOUNT 3) by (vm_compute; lia).
  split; [exact H30|]. split; [exact H50|]. exact (box_band_stack 3 30 50 H30 H50).
Defined.

(** X4 on the puzzle [easy]. *)
Lemma read_candidates_witness :
  read 3 reports_zero easy = Some easy_grid
  ∧ length easy_grid = NCOUNT 3 * NCOUNT 3
  ∧ (∀ j token, j < NCOUNT 3 * NCOUNT 3 → easy !! j = Some token →
       if token =? 0 then ∃ cs, easy_grid !! j = Some (Cell.Empty cs)
       else 1 ≤ token ≤ NCOUNT 3 ∧ easy_grid !! j = Some (Cell.Filled token))
  ∧ (∀ j cs d, easy_grid !! j = Some (Cell.Empty cs) →
       d ∈ cs ↔
       1 ≤ d ≤ NCOUNT 3
       ∧ ∀ i TYPE, easy_grid !! i = Some (Cell.Filled d) →
                   group_of 3 TYPE i ≠ group_of 3 TYPE j).
Proof.
  split; [vm_compute; reflexivity|].
  apply (read_candidates 3 reports_zero easy easy_grid). vm_compute; reflexivity.
Defined.

(** X6 on the cell 5 of [easy_grid], which the first sweep fills with 8. *)
Lemma restrict_assigns_candidate_witness :
  easy_grid !! 5 = Some (Cell.Empty [2; 4; 6; 8])
  ∧ (restrict 3 reports_zero easy_grid).2 !! 5 = Some (Cell.Filled 8)
  ∧ 8 ∈ [2; 4; 6; 8].
Proof.
  split; [reflexivity|]. split; [vm_compute; reflexivity|].
  apply (restrict_assigns_candidate 3 reports_zero easy_grid 5 [2; 4; 6; 8] 8);
    [reflexivity | vm_compute; reflexivity].
Defined.

(** X7 on [easy_grid]. *)
Lemma solve_fills_from_candidates_witness :
  solve 3 reports_zero easy_grid = Returned true (Cell.Filled <$> easy_solution)
  ∧ length (Cell.Filled <$> easy_solution) = length easy_grid
  ∧ (∀ i d, easy_grid !! i = Some (Cell.Filled d) →
       (Cell.Filled <$> easy_solution) !! i = Some (Cell.Filled d))
  ∧ (∀ i cs, easy_grid !! i = Some (Cell.Empty cs) →
       ∃ d, d ∈ cs ∧ (Cell.Filled <$> easy_solution) !! i = Some (Cell.Filled d)).
Proof.
  split; [vm_compute; reflexivity|].
  apply (solve_fills_from_candidates 3 reports_zero easy_grid). vm_compute; reflexivity.
Defined.

(** X8 on [easy_grid] and its completion. *)
Lemma restrict_keeps_completions_witness :
  well_formed 3 easy_grid ∧ legal 3 easy_solution
  ∧ (extends_to easy_grid easy_solution ↔
     extends_to (restrict 3 reports_zero easy_grid).2 easy_solution).
Proof.
  assert (Hwf : well_formed 3 easy_grid).
  { apply (read_well_formed 3 reports_zero easy); [apply easy_read | apply easy_clash_free]. }
  split; [exact Hwf|]. split; [apply easy_solution_legal|].
  exact (restrict_keeps_completions 3 reports_zero easy_grid easy_solution
           Hwf easy_solution_legal).
Defined.

(** X9 on the puzzle [easy], which three sweeps fill. *)
Lemma sweeps_alone_leave_one_completion_witness :
  read 3 reports_zero easy = Some easy_grid
  ∧ sweeps 3 reports_zero 3 easy_grid = Cell.Filled <$> easy_solution
  ∧ legal 3 easy_solution ∧ completes 3 easy easy_solution
  ∧ easy_solution = easy_solution.
Proof.
  split; [vm_compute; reflexivity|]. split; [vm_compute; reflexivity|].
  split; [apply easy_solution_legal|]. split; [apply easy_solution_completes|].
  apply (sweeps_alone_leave_one_completion 3 reports_zero easy easy_grid 3
           easy_solution easy_solution).
  - vm_compute; reflexivity.
  - vm_compute; reflexivity.
  - apply easy_solution_legal.
  - apply easy_solution_completes.
Defined.

(** X10 on the puzzle [easy]. *)
Lemma solve_result_is_completion_witness :
  read 3 reports_zero easy = Some easy_grid ∧ clash_free 3 easy
  ∧ solve 3 reports_zero easy_grid = Returned true (Cell.Filled <$> easy_solution)
  ∧ ∃ s, Cell.Filled <$> easy_solution = Cell.Filled <$> s
         ∧ legal 3 s ∧ completes 3 easy s
         ∧ isCorrect 3 reports_zero (Cell.Filled <$> easy_solution) = true.
Proof.
  split; [vm_compute; reflexivity|]. split; [apply easy_clash_free|].
  split; [vm_compute; reflexivity|].
  apply (solve_result_is_completion 3 reports_zero easy easy_grid).
  - vm_compute; reflexivity.
  - apply easy_clash_free.
  - vm_compute; reflexivity.
Defined.

(** X11 on the puzzle [easy]. *)
Lemma solve_finds_a_completion_witness :
  read 3 reports_zero easy = Some easy_grid
  ∧ legal 3 easy_solution ∧ completes 3 easy easy_solution
  ∧ ∃ g' s', solve 3 reports_zero easy_grid = Returned true g'
      ∧ g' = Cell.Filled <$> s' ∧ legal 3 s' ∧ completes 3 easy s'
      ∧ isCorrect 3 reports_zero g' = true.
Proof.
  split; [vm_compute; reflexivity|].
  split; [apply easy_solution_legal|]. split; [apply easy_solution_completes|].
  apply (solve_finds_a_completion 3 reports_zero easy easy_grid easy_solution).
  - vm_compute; reflexivity.
  - apply easy_solution_legal.
  - apply easy_solution_completes.
Defined.

(** X12 on the givens [two_singles], which do not clash and force both 1
    and 2 on the first cell. *)
Lemma solve_refuses_unsolvable_witness :
  read 3 reports_zero two_singles = Some two_singles_grid
  ∧ clash_free 3 two_singles
  ∧ ∃ g', solve 3 reports_zero two_singles_grid = Returned false g'.
Proof.
  split; [vm_compute; reflexivity|]. split; [apply two_singles_clash_free|].
  apply (solve_refuses_unsolvable 3 reports_zero two_singles two_singles_grid).
  - vm_compute; reflexivity.
  - apply two_singles_clash_free.
  - apply two_singles_no_completion.
Defined.

(** X13 on [two_singles_grid]. *)
Lemma solve_failure_leaves_sweeps_witness :
  ∃ g', solve 3 reports_zero two_singles_grid = Returned false g'
    ∧ isFilled g' = false
    ∧ ∃ n, g' = sweeps 3 reports_zero n two_singles_grid.
Proof.
  eexists. split; [vm_compute; reflexivity|].
  apply (solve_failure_leaves_sweeps 3 reports_zero two_singles_grid).
  vm_compute; reflexivity.
Defined.

(** A filled input with a clash: [easy_solution] with the digit of its
    second cell made equal to the digit of the first. *)
Lemma clashing_input_in_range i token :
  <[1 := 5]> easy_solution !! i = Some token → 1 ≤ token ≤ NCOUNT 3.
Proof.
  intros Hi%list_elem_of_lookup_2%list_elem_of_In.
  assert (H : forallb (λ t, (1 <=? t) && (t <=? NCOUNT 3)) (<[1 := 5]> easy_solution)
              = true) by (vm_compute; reflexivity).
  rewrite forallb_forall in H. apply H in Hi.
  rewrite andb_true_iff, !Nat.leb_le in Hi. exact Hi.
Qed.

(** X14 on that input. *)
Lemma solve_accepts_any_filled_input_witness :
  length (<[1 := 5]> easy_solution) = NCOUNT 3 * NCOUNT 3
  ∧ read 3 reports_zero (<[1 := 5]> easy_solution)
    = Some (Cell.Filled <$> <[1 := 5]> easy_solution)
  ∧ solve 3 reports_zero (Cell.Filled <$> <[1 := 5]> easy_solution)
    = Returned true (Cell.Filled <$> <[1 := 5]> easy_solution)
  ∧ (isCorrect 3 reports_zero (Cell.Filled <$> <[1 := 5]> easy_solution) = true ↔
     legal 3 (<[1 := 5]> easy_solution)).
Proof.
  split; [reflexivity|].
  apply (solve_accepts_any_filled_input 3 reports_zero (<[1 := 5]> easy_solution));
    [reflexivity | apply clashing_input_in_range].
Defined.

(** X15 on the first two cells of [easy_cells], which hold 5 and 3,
    before any elimination: each elimination changes the grid, and the
    third cell has lost both digits after the two. *)
Lemma updatePossibilities_any_order_witness :
  easy_cells !! 0 = Some (Cell.Filled 5) ∧ easy_cells !! 1 = Some (Cell.Filled 3)
  ∧ updatePossibilities 3 reports_zero 0 (updatePossibilities 3 reports_zero 1 easy_cells)
    = updatePossibilities 3 reports_zero 1 (updatePossibilities 3 reports_zero 0 easy_cells)
  ∧ updatePossibilities 3 reports_zero 0 (updatePossibilities 3 reports_zero 0 easy_cells)
    = updatePossibilities 3 reports_zero 0 easy_cells
  ∧ easy_cells !! 2 = Some (Cell.Empty [1; 2; 3; 4; 5; 6; 7; 8; 9])
  ∧ updatePossibilities 3 reports_zero 0 easy_cells !! 2
    = Some (Cell.Empty [1; 2; 3; 4; 6; 7; 8; 9])
  ∧ updatePossibilities 3 reports_zero 1 easy_cells !! 2
    = Some (Cell.Empty [1; 2; 4; 5; 6; 7; 8; 9])
  ∧ updatePossibilities 3 reports_zero 0 (updatePossibilities 3 reports_zero 1 easy_cells)
    !! 2 = Some (Cell.Empty [1; 2; 4; 6; 7; 8; 9]).
Proof.
  split; [reflexivity|]. split; [reflexivity|].
  assert (H := updatePossibilities_any_order 3 reports_zero 0 1 5 3 easy_cells
                 eq_refl eq_refl).
  destruct H as [H1 H2]. split; [exact H1|]. split; [exact H2|].
  repeat split; vm_compute; reflexivity.
Defined.

(** X16 on [easy_solution] with every digit raised by 10. *)
Lemma isCorrect_ignores_digit_names_witness :
  length easy_solution = NCOUNT 3 * NCOUNT 3
  ∧ isCorrect 3 reports_zero (Cell.Filled <$> ((λ x, x + 10) <$> easy_solution))
    = isCorrect 3 reports_zero (Cell.Filled <$> easy_solution).
Proof.
  split; [reflexivity|].
  apply (isCorrect_ignores_digit_names 3 reports_zero easy_solution (λ x, x + 10));
    [reflexivity | intros x y; lia].
Defined.

(** X17 on the puzzle [easy] after one sweep. *)
Lemma propagation_keeps_well_formed_witness :
  read 3 reports_zero easy = Some easy_grid ∧ clash_free 3 easy
  ∧ well_formed 3 (sweeps 3 reports_zero 1 easy_grid)
  ∧ ∀ i cs number,
      sweeps 3 reports_zero 1 easy_grid !! i = Some (Cell.Empty cs) → number ∈ cs →
      well_formed 3 (assign 3 reports_zero i number (sweeps 3 reports_zero 1 easy_grid)).
Proof.
  split; [vm_compute; reflexivity|]. split; [apply easy_clash_free|].
  apply (propagation_keeps_well_formed 3 reports_zero easy easy_grid 1);
    [vm_compute; reflexivity | apply easy_clash_free].
Defined.
